(** * VectorSynth constant synthesis: [lib/constantsynth.cpp]

    A shallow embedding of the constant-synthesis core: the quantifier
    preprocessor [preprocess], the undef probe [is_undef], the value
    renderer [print_single_varval] / [print_varval], the diagnostic
    builder [error] and the orchestrator [ConstantSynth::synthesize].

    The solver's expression library, the symbolic executor and the IR type
    system are collaborators whose code lives outside [constantsynth.cpp];
    their terms are modelled by a small first-order term language and their
    opaque operations are fields of the interfaces [Solver], [IR],
    [Config] and [Dispatcher] below. *)

From Stdlib Require Import Ascii String.
From stdpp Require Import gmap strings list fin_sets.

Local Open Scope string_scope.
Local Open Scope list_scope.
Local Open Scope nat_scope.

(** ** Symbolic expressions *)

(** Sorts of the solver: booleans and fixed-width bit-vectors. *)
Inductive sort :=
  | SBool
  | SBV (bits : N).

(** A solver variable (an uninterpreted constant): a name and a sort. *)
Record var := MkVar { vname : string; vsort : sort }.

Global Instance sort_eq_dec : EqDecision sort.
Proof. solve_decision. Defined.

Global Instance var_eq_dec : EqDecision var.
Proof. solve_decision. Defined.

Global Instance sort_countable : Countable sort.
Proof.
  refine (inj_countable'
            (λ s, match s with SBool => None | SBV w => Some w end)
            (λ o, match o with None => SBool | Some w => SBV w end) _).
  by intros [].
Defined.

Global Instance var_countable : Countable var.
Proof.
  refine (inj_countable' (λ x, (vname x, vsort x))
                         (λ p, MkVar p.1 p.2) _).
  by intros [].
Defined.

(** Modelled from the spec: the header [smt/expr.h] is not part of this unit;
    the spec describes an "immutable value-typed term (boolean / bit-vector /
    quantifier node) with structural equality".  [EInvalid] is the term the
    symbolic executor leaves when it "never produced a term". *)
Inductive expr :=
  | EInvalid
  | EVar (x : var)
  | EBool (b : bool)
  | EUInt (n : N) (bits : N)
  | ENot (a : expr)
  | EAnd (a b : expr)
  | EOr (a b : expr)
  | EImplies (a b : expr)
  | EEq (a b : expr)
  | EForAll (xs : gset var) (body : expr).

Global Instance expr_eq_dec : EqDecision expr.
Proof. solve_decision. Defined.

(** Modelled from the spec: the operations of the solver's expression class
    that [constantsynth.cpp] calls ("expression construction / combination /
    substitution"; "structural equality"), on the term language above.  The
    builders are plain term constructors; whatever rewriting the solver does
    while building or simplifying is the [simplify] of the interface
    [Solver] below. *)
Module smt.

Definition mkBool (b : bool) : expr := EBool b.
Definition mkUInt (n bits : N) : expr := EUInt n bits.
Definition mkNot (a : expr) : expr := ENot a.
Definition mkAnd (a b : expr) : expr := EAnd a b.
Definition mkOr (a b : expr) : expr := EOr a b.
Definition implies (a b : expr) : expr := EImplies a b.
Definition notImplies (a b : expr) : expr := EAnd a (ENot b).
Definition mkEq (a b : expr) : expr := EEq a b.
Definition mkNe (a b : expr) : expr := ENot (EEq a b).
Definition mkForAll (xs : gset var) (body : expr) : expr := EForAll xs body.

(** The sort of a term; connectives and quantifiers are boolean. *)
Definition sort_of (e : expr) : sort :=
  match e with
  | EVar x => vsort x
  | EUInt _ bits => SBV bits
  | _ => SBool
  end.

(** [expr::mkVar(name, e)]: a variable of the same sort as [e]. *)
Definition mkVar (name : string) (e : expr) : expr :=
  EVar (MkVar name (sort_of e)).

Definition isValid (e : expr) : bool :=
  match e with EInvalid => false | _ => true end.
Definition isTrue (e : expr) : bool :=
  match e with EBool true => true | _ => false end.
Definition isFalse (e : expr) : bool :=
  match e with EBool false => true | _ => false end.
Definition isConst (e : expr) : bool :=
  match e with EBool _ | EUInt _ _ => true | _ => false end.
Definition isUInt (e : expr) : option N :=
  match e with EUInt n _ => Some n | _ => None end.

(** [var.isBool()] on a quantified variable. *)
Definition isBool (x : var) : bool := bool_decide (vsort x = SBool).

(** Structural equality, [expr::eq]. *)
Definition eq (a b : expr) : bool := bool_decide (a = b).

(** [e.subst(from, to)] for a variable [from]; occurrences bound by an
    inner quantifier are not free and stay. *)
Fixpoint subst (from : var) (to : expr) (e : expr) : expr :=
  match e with
  | EInvalid => EInvalid
  | EVar x => if decide (x = from) then to else EVar x
  | EBool b => EBool b
  | EUInt n bits => EUInt n bits
  | ENot a => ENot (subst from to a)
  | EAnd a b => EAnd (subst from to a) (subst from to b)
  | EOr a b => EOr (subst from to a) (subst from to b)
  | EImplies a b => EImplies (subst from to a) (subst from to b)
  | EEq a b => EEq (subst from to a) (subst from to b)
  | EForAll xs body =>
      if decide (from ∈ xs) then EForAll xs body
      else EForAll xs (subst from to body)
  end.

(** [e.vars()]: the free variables of a term. *)
Fixpoint vars (e : expr) : gset var :=
  match e with
  | EInvalid | EBool _ | EUInt _ _ => ∅
  | EVar x => {[ x ]}
  | ENot a => vars a
  | EAnd a b | EOr a b | EImplies a b | EEq a b => vars a ∪ vars b
  | EForAll xs body => vars body ∖ xs
  end.

End smt.

(** ** Solver results and the world the unit runs in *)

(** Modelled from the spec: "Result: exactly one of {Invalid, Timeout,
    SolverError(reason), Skipped, Unsat, Sat(Model)}"; the class itself is
    declared in the solver's header. *)
Inductive Result (Model : Type) :=
  | Invalid
  | Timeout
  | SolverError (reason : string)
  | Skipped
  | Unsat
  | Sat (m : Model).
Global Arguments Invalid {Model}.
Global Arguments Timeout {Model}.
Global Arguments SolverError {Model} reason.
Global Arguments Skipped {Model}.
Global Arguments Unsat {Model}.
Global Arguments Sat {Model} m.

(** What the process has observed so far: how often the memory governor was
    asked, which formulas went to the solver, and the debug stream. *)
Record World := MkWorld {
  mem_calls : nat;
  queries : list expr;
  dbg : string;
}.

(** State-and-abort monad: [None] is a failed [ENSURE] / [assert]. *)
Definition M (A : Type) : Type := World → option (A * World).

Definition ret {A} (a : A) : M A := λ w, Some (a, w).
Definition bind {A B} (c : M A) (k : A → M B) : M B :=
  λ w, match c w with
       | Some (a, w') => k a w'
       | None => None
       end.
Definition abort {A} : M A := λ _, None.

Notation "'do' x <- c ; k" := (bind c (λ x, k))
  (at level 10, x name, c at level 100, k at level 200).

(** Solver collaborator: simplifier, satisfiability oracle (indexed by the
    number of earlier queries) and model evaluation. *)
Class Solver := {
  Model : Type;
  simplify : expr → expr;
  solve : nat → expr → Result Model;
  Model_eval : Model → expr → bool → expr;
  (** the model carried by a result that is not [Sat] *)
  no_model : Model;
}.

(** Process-wide configuration and the half-memory governor, the latter as
    the sequence of answers it gives to successive queries. *)
Class Config := {
  disable_undef_input : bool;
  disable_poison_input : bool;
  debug : bool;
  half_memory_answers : nat → bool;
}.

Section Results.
Context {Model : Type}.

Definition isInvalid (r : Result Model) : bool :=
  match r with Invalid => true | _ => false end.
Definition isTimeout (r : Result Model) : bool :=
  match r with Timeout => true | _ => false end.
Definition isError (r : Result Model) : bool :=
  match r with SolverError _ => true | _ => false end.
Definition isSkip (r : Result Model) : bool :=
  match r with Skipped => true | _ => false end.
Definition isUnsat (r : Result Model) : bool :=
  match r with Unsat => true | _ => false end.
Definition isSat (r : Result Model) : bool :=
  match r with Sat _ => true | _ => false end.
Definition getReason (r : Result Model) : string :=
  match r with SolverError reason => reason | _ => "" end.
End Results.

Definition getModel `{Solver} (r : Result Model) : Model :=
  match r with Sat m => m | _ => no_model end.

(** [hit_half_memory_limit()]: one more question to the governor. *)
Definition hit_half_memory_limit `{Config} : M bool :=
  λ w, Some (half_memory_answers (mem_calls w),
             MkWorld (S (mem_calls w)) (queries w) (dbg w)).

(** [check_expr(q)]: one satisfiability query. *)
Definition check_expr `{Solver} (q : expr) : M (Result Model) :=
  λ w, Some (solve (length (queries w)) q,
             MkWorld (mem_calls w) (queries w ++ [q]) (dbg w)).

(** [config::dbg() << s]. *)
Definition dbg_write (s : string) : M unit :=
  λ w, Some (tt, MkWorld (mem_calls w) (queries w) (dbg w +:+ s)).

(** ** IR data the unit consumes *)

(** Modelled from the spec: the IR type system is out of scope; only the
    scalar / struct-like / array-like shape is consulted by the renderer. *)
#[warnings="-register-all"]
Inductive Ty :=
  | ScalarTy (name : string)
  | StructTy (elems : list Ty)
  | VectorTy (elems : list Ty).

Definition isAggregateType (ty : Ty) : bool :=
  match ty with ScalarTy _ => false | _ => true end.
Definition isStructType (ty : Ty) : bool :=
  match ty with StructTy _ => true | _ => false end.

Record StateValue := MkStateValue { value : expr; non_poison : expr }.

Definition StateValue_isValid (sv : StateValue) : bool :=
  smt.isValid (value sv) && smt.isValid (non_poison sv).

(** The dynamic class of a [Value]; an [Input] owns its classifier variable
    ([getTyVar], two bits wide: 0 concrete, 1 undef, 2 poison). *)
Inductive ValueKind :=
  | IsInput (tyvar : var)
  | IsConstantInput
  | IsOther.

(** A [Value] object; [addr] is its identity (what a [const Value*] holds). *)
Record Value := MkValue {
  addr : positive;
  kind : ValueKind;
  getName : string;
  getType : Ty;
}.

(** [dynamic_cast<const Input*>(v)], giving the classifier on success. *)
Definition as_Input (v : Value) : option var :=
  match kind v with IsInput tv => Some tv | _ => None end.
Definition is_Input (v : Value) : bool :=
  match kind v with IsInput _ => true | _ => false end.
Definition is_ConstantInput (v : Value) : bool :=
  match kind v with IsConstantInput => true | _ => false end.

(** Modelled from the spec: [AndExpr], "a conjunction accumulator supporting
    subtract already-implied clauses". *)
Definition AndExpr := list expr.
Definition AndExpr_del (a b : AndExpr) : AndExpr :=
  filter (λ c, c ∉ b) a.
Definition AndExpr_call (a : AndExpr) : expr :=
  foldl smt.mkAnd (smt.mkBool true) a.

Definition ValTy : Type := StateValue * gset var.

Record Function := MkFunction {
  getInputs : list Value;
  Function_getType : Ty;
  instrs : list Value;
}.

Record Transform := MkTransform { src : Function; tgt : Function }.

(** A symbolically executed program, as far as this unit reads it.
    [getPre] is the precondition accumulator, [returnDomain] the term
    [returnDomain()()], [getForAlls] the quantified variables. *)
Record State (Memory : Type) := MkState {
  isSource : bool;
  getPre : AndExpr;
  getValues : list (Value * ValTy * bool);
  getForAlls : gset var;
  returnDomain : expr;
  returnVal : ValTy;
  getMemory : Memory;
}.
Global Arguments isSource {Memory} s.
Global Arguments getPre {Memory} s.
Global Arguments getValues {Memory} s.
Global Arguments getForAlls {Memory} s.
Global Arguments returnDomain {Memory} s.
Global Arguments returnVal {Memory} s.
Global Arguments getMemory {Memory} s.

(** IR collaborator: symbolic execution ([State] construction followed by
    [util::sym_exec]) and the pieces of [Memory], [Type] and [Value] that
    this unit calls. *)
Class IR `{Solver} := {
  Memory : Type;
  sym_exec : Function → bool → State Memory;
  Memory_print : Memory → Model → string;
  Value_print : Value → string;
  StateValue_print : StateValue → string;
  expr_print : expr → string;
  Type_printVal : Ty → State Memory → expr → string;
  Type_extract : Ty → StateValue → nat → StateValue;
  Type_refines :
    Ty → State Memory → State Memory → StateValue → StateValue → expr * expr;
  isUndef : var → bool;
}.

(** ** [std::map<expr, expr>]: the instances of [preprocess]

    Keys are compared structurally.  The entries are kept in the order they
    were inserted; the order [std::map] iterates in is the solver's opaque
    order on terms. *)
Definition emap := list (expr * expr).

Definition emap_mem (k : expr) (m : emap) : bool :=
  bool_decide (k ∈ m.*1).

(** [m[k] = v]: overwrite, or insert when absent. *)
Fixpoint emap_assign (k v : expr) (m : emap) : emap :=
  match m with
  | [] => [(k, v)]
  | (k', v') :: m' =>
      if decide (k' = k) then (k, v) :: m' else (k', v') :: emap_assign k v m'
  end.

(** [m.try_emplace(k, v)]: insert only when absent. *)
Definition emap_try_emplace (k v : expr) (m : emap) : emap :=
  if emap_mem k m then m else m ++ [(k, v)].

(** ** [preprocess] *)

Section Preprocess.
Context `{Solver} `{Config}.

(** Lines 37-43: one round of the loop over [qvars0]. *)
Definition elim_bool_step (st : gset var * expr) (x : var)
  : gset var * expr :=
  let '(qvars, e) := st in
  if negb (smt.isBool x) then (qvars, e)
  else
    (qvars ∖ {[ x ]},
     smt.mkAnd (simplify (smt.subst x (smt.mkBool true) e))
               (simplify (smt.subst x (smt.mkBool false) e))).

(** Lines 36-43: eliminate all quantified boolean vars. *)
Definition elim_bool_qvars (qvars0 : gset var) (e : expr)
  : gset var * expr :=
  foldl elim_bool_step (qvars0, e) (elements qvars0).

(** [nums[i]] of line 52. *)
Definition nums (i : N) : expr := smt.mkUInt i 2.

(** Lines 61-79: the loop over [i = 0, 1, 2] for one entry [(e, v)] of
    [instances], run on the values of [i] still to come. *)
Fixpoint instantiate_entry (x : var) (e v : expr) (rest : list N)
    (instances2 : emap) : emap :=
  match rest with
  | [] => instances2
  | i :: rest' =>
      if disable_undef_input && bool_decide (i = 1%N) then
        instantiate_entry x e v rest' instances2
      else if disable_poison_input && bool_decide (i = 2%N) then
        instantiate_entry x e v rest' instances2
      else
        let newexpr := smt.subst x (nums i) e in
        if smt.eq newexpr e then
          emap_assign newexpr v instances2
        else
          let newexpr := simplify newexpr in
          if smt.isFalse newexpr then
            instantiate_entry x e v rest' instances2
          else
            instantiate_entry x e v rest'
              (emap_try_emplace newexpr
                 (smt.mkAnd v (smt.mkEq (EVar x) (nums i))) instances2)
  end.

(** Lines 60-81: all entries of [instances] for one input's classifier,
    collected in [instances2], which is empty at the start of every round
    (it has just been moved from). *)
Definition instantiate_var (x : var) (instances : emap) : emap :=
  foldl (λ instances2 '(e, v),
           instantiate_entry x e v [0%N; 1%N; 2%N] instances2)
        [] instances.

(** Lines 54-86: the loop over the source's inputs, with its bail-out. *)
Fixpoint instantiate_inputs (inputs : list Value) (instances : emap)
  : M emap :=
  match inputs with
  | [] => ret instances
  | i :: inputs' =>
      match as_Input i with
      | None => instantiate_inputs inputs' instances
      | Some x =>
          let instances := instantiate_var x instances in
          if bool_decide (128 ≤ length instances)%nat then ret instances
          else
            do full <- hit_half_memory_limit;
            if full then ret instances
            else instantiate_inputs inputs' instances
      end
  end.

(** Lines 87-90: the disjunction of the surviving instances. *)
Definition mk_insts (qvars : gset var) (instances : emap) : expr :=
  foldl (λ insts '(e, v),
           smt.mkOr insts (smt.mkAnd (smt.mkForAll qvars e) v))
        (smt.mkBool false) instances.

(** [preprocess(t, qvars0, undef_qvars, e)].  The block guarded by
    [if (0)] (lines 28-33) is never executed. *)
Definition preprocess (t : Transform) (qvars0 undef_qvars : gset var)
    (e : expr) : M expr :=
  do full <- hit_half_memory_limit;
  if full then ret (smt.mkForAll qvars0 e)
  else
    let '(qvars, e) := elim_bool_qvars qvars0 e in
    if bool_decide (undef_qvars = ∅) then ret (smt.mkForAll qvars e)
    else
      do full <- hit_half_memory_limit;
      if full then ret (smt.mkForAll qvars e)
      else
        do instances <-
          instantiate_inputs (getInputs (src t)) [(e, smt.mkBool true)];
        ret (mk_insts qvars instances).

(** [is_undef(e)], lines 97-102. *)
Definition is_undef (e : expr) : M bool :=
  if smt.isConst e then ret false
  else
    do r <- check_expr
              (smt.mkForAll (smt.vars e) (smt.mkNe (smt.mkVar "#undef" e) e));
    ret (isUnsat r).

End Preprocess.

(** ** Diagnostics *)

(** Modelled from the spec: [util::Errors], the "ordered list of (message,
    has-witness) pairs; append-only". *)
Definition Errors := list (string * bool).
Definition Errors_add (errs : Errors) (msg : string) (has_witness : bool)
  : Errors := errs ++ [(msg, has_witness)].

Definition nl : string := String (Ascii.ascii_of_nat 10) "".
Definition tab : string := String (Ascii.ascii_of_nat 9) "".

Section Render.
Context `{IR} `{Config}.

(** [print_single_varval], lines 104-152; the text written to [os].
    [m[e]] is evaluation with completion; [ENSURE] and [assert] abort when
    they fail. *)
Definition print_single_varval (st : State Memory) (m : Model)
    (var : Value) (type : Ty) (val : StateValue) : M string :=
  if negb (StateValue_isValid val) then ret "(invalid expr)"
  else
    let v := Model_eval m (non_poison val) false in
    if negb (smt.isConst v) || smt.isFalse v then ret "poison"
    else
      do undef_input <-
        match as_Input var with
        | Some tyvar =>
            match smt.isUInt (Model_eval m (EVar tyvar) true) with
            | None => abort
            | Some n =>
                if bool_decide (n = 1%N) then ret true
                else if bool_decide (n = 0%N) then ret false
                else abort
            end
        | None => ret false
        end;
      if undef_input then ret "undef"
      else
        let partial := Model_eval m (value val) false in
        do undef <- is_undef partial;
        if undef then ret "undef"
        else
          let os := Type_printVal type st (Model_eval m (value val) true) in
          if negb (smt.isConst partial) then
            let found_undef :=
              existsb isUndef (elements (smt.vars partial)) in
            if found_undef then ret (os +:+ tab +:+ "[based on undef value]")
            else ret os
          else ret os.

(** Lines 164-168: the elements of an aggregate from index [i] on, each
    rendered by [render] and separated by commas. *)
Fixpoint print_children (render : Ty → StateValue → M string)
    (agg : Ty) (val : StateValue) (i : nat) (tys : list Ty) : M string :=
  match tys with
  | [] => ret ""
  | child :: tys' =>
      do s <- render child (Type_extract agg val i);
      do r <- print_children render agg val (S i) tys';
      ret ((if bool_decide (i ≠ 0%nat) then ", " else "") +:+ s +:+ r)
  end.

(** [print_varval], lines 154-170. *)
Fixpoint print_varval (st : State Memory) (m : Model) (var : Value)
    (type : Ty) (val : StateValue) {struct type} : M string :=
  match type with
  | ScalarTy _ => print_single_varval st m var type val
  | StructTy elems | VectorTy elems =>
      do body <- print_children (print_varval st m var) type val 0%nat elems;
      ret ((if isStructType type then "{ " else "< ")
             +:+ body +:+ (if isStructType type then " }" else " >"))
  end.

(** Lines 209-217 of [error]: the source's inputs. *)
Fixpoint print_inputs (src_state : State Memory) (m : Model)
    (values : list (Value * ValTy * bool)) : M string :=
  match values with
  | [] => ret ""
  | (var, val, used) :: values' =>
      if negb (is_Input var) && negb (is_ConstantInput var) then
        print_inputs src_state m values'
      else
        do s <- print_varval src_state m var (getType var) val.1;
        do r <- print_inputs src_state m values';
        ret (Value_print var +:+ " = " +:+ s +:+ nl +:+ r)
  end.

Definition starts_with_percent (name : string) : bool :=
  match name with
  | String c _ => bool_decide (c = "%"%char)
  | EmptyString => false
  end.

(** Lines 229-244 of [error]: the values of one state, up to [var_name]. *)
Fixpoint print_values (st : State Memory) (m : Model) (var_name : string)
    (check_each_var : bool) (values : list (Value * ValTy * bool))
    (seen_vars : gset string) : M (string * gset string) :=
  match values with
  | [] => ret ("", seen_vars)
  | (var, val, used) :: values' =>
      let name := getName var in
      if bool_decide (name = var_name) then ret ("", seen_vars)
      else if negb (starts_with_percent name) || is_Input var then
        print_values st m var_name check_each_var values' seen_vars
      else if check_each_var && bool_decide (name ∈ seen_vars) then
        print_values st m var_name check_each_var values' seen_vars
      else
        let seen_vars :=
          if check_each_var then {[ name ]} ∪ seen_vars else seen_vars in
        do s <- print_varval st m var (getType var) val.1;
        do r <- print_values st m var_name check_each_var values' seen_vars;
        ret (Value_print var +:+ " = " +:+ s +:+ nl +:+ r.1, r.2)
  end.

(** Lines 220-247 of [error]: both states in turn. *)
Fixpoint print_states (m : Model) (var_name : string)
    (check_each_var : bool) (sts : list (State Memory))
    (seen_vars : gset string) : M string :=
  match sts with
  | [] => ret ""
  | st :: sts' =>
      let header :=
        if negb check_each_var then
          if isSource st then nl +:+ "Source:" +:+ nl
          else nl +:+ "Target:" +:+ nl
        else "" in
      do vs <- print_values st m var_name check_each_var
                 (getValues st) seen_vars;
      do r <- print_states m var_name check_each_var sts' vs.2;
      ret (header +:+ vs.1 +:+ Memory_print (getMemory st) m +:+ r)
  end.

(** [error], lines 174-251; returns the collector after the call. *)
Definition error (errs : Errors) (src_state tgt_state : State Memory)
    (r : Result Model) (var : option Value) (msg : string)
    (check_each_var : bool) (print_var_val : Model → string) : M Errors :=
  if isInvalid r then ret (Errors_add errs "Invalid expr" false)
  else if isTimeout r then ret (Errors_add errs "Timeout" false)
  else if isError r then
    ret (Errors_add errs ("SMT Error: " +:+ getReason r) false)
  else if isSkip r then ret (Errors_add errs "Skip" false)
  else
    let var_name := from_option getName "" var in
    let m := getModel r in
    let s := msg in
    let s :=
      if negb (bool_decide (var_name = ""))
      then s +:+ " for " +:+ from_option Value_print "" var
      else s in
    let s := s +:+ nl +:+ nl +:+ "Example:" +:+ nl in
    do ins <- print_inputs src_state m (getValues src_state);
    do sts <- print_states m var_name check_each_var
                [src_state; tgt_state] ∅;
    ret (Errors_add errs (s +:+ ins +:+ sts +:+ print_var_val m) true).

End Render.

(** ** The orchestrator *)

Module vectorsynth.

(** The [ConstantSynth] object: the transform, the flag given to the
    constructor, and the name-indexed target instructions. *)
Record ConstantSynth := MkConstantSynth {
  t : Transform;
  check_each_var : bool;
  tgt_instrs : gmap string positive;
}.

(** [ConstantSynth::ConstantSynth], lines 255-262; [emplace] keeps the
    first instruction registered under a name. *)
Definition ConstantSynth_new (t : Transform) (check_each_var : bool)
  : ConstantSynth :=
  MkConstantSynth t check_each_var
    (if check_each_var then
       foldl (λ m i,
                match m !! getName i with
                | Some _ => m
                | None => <[ getName i := addr i ]> m
                end)
             ∅ (instrs (tgt t))
     else ∅).

(** What the result handlers capture by reference: the collector and the
    caller's map from hole (by identity) to solved term. *)
Definition Output : Type := Errors * gmap positive expr.
Definition Handler `{Solver} : Type := Result Model → Output → M Output.

(** [Solver::check], the entry point that takes the list of (formula,
    result handler) pairs.  It is declared in the solver's header and
    defined outside this unit: which results it reports to a handler, and
    whether it goes on after a report, is not fixed here, so it is a field
    of an interface of its own. *)
Class Dispatcher `{Solver} := {
  Solver_check : list (expr * Handler) → Output → M Output;
}.

Section Synthesize.
Context `{IR} `{Config} {D : Dispatcher}.

(** The lambda [mk_fml], lines 301-313, with its captures as arguments. *)
Definition mk_fml (t : Transform) (qvars uvars : gset var)
    (pre_src pre_tgt axioms_expr : expr) (refines : expr) : M expr :=
  if smt.isFalse refines then ret refines
  else
    let fml := smt.mkAnd pre_tgt (smt.implies pre_src refines) in
    do p <- preprocess t qvars uvars fml;
    ret (smt.mkAnd axioms_expr p).

(** Handler of the domain-loss query, lines 338-341, through the lambda
    [err] of lines 332-334. *)
Definition domain_handler (src_state tgt_state : State Memory)
    (var : option Value) (check_each_var : bool) : Handler :=
  λ r '(errs, result),
    do errs' <- error errs src_state tgt_state r var
                  "Source is more defined than target" check_each_var
                  (λ _, "");
    ret (errs', result).

Definition reservedc : string := "%_reservedc".

(** Lines 373-386: record and print every reserved constant. *)
Fixpoint record_constants (src_state : State Memory) (m : Model)
    (values : list (Value * ValTy * bool))
    (result : gmap positive expr) (s : string)
  : M (gmap positive expr * string) :=
  match values with
  | [] => ret (result, s)
  | (var, val, used) :: values' =>
      if negb (is_Input var) && negb (is_ConstantInput var) then
        record_constants src_state m values' result s
      else if String.prefix reservedc (getName var) then
        let result :=
          <[ addr var := Model_eval m (value val.1) false ]> result in
        do txt <- print_varval src_state m var (getType var) val.1;
        record_constants src_state m values' result
          (s +:+ Value_print var +:+ " = " +:+ txt +:+ nl)
      else record_constants src_state m values' result s
  end.

(** Handler of the main query, lines 343-388. *)
Definition main_handler (src_state tgt_state : State Memory) : Handler :=
  λ r '(errs, result),
    if isInvalid r then ret (Errors_add errs "Invalid expr" false, result)
    else if isTimeout r then ret (Errors_add errs "Timeout" false, result)
    else if isError r then
      ret (Errors_add errs ("SMT Error: " +:+ getReason r) false, result)
    else if isSkip r then ret (Errors_add errs "Skip" false, result)
    else if isUnsat r then ret (Errors_add errs "Unsat" false, result)
    else
      let m := getModel r in
      do rs <- record_constants src_state m (getValues tgt_state) result
                 (";result" +:+ nl);
      do _ <- dbg_write rs.2;
      ret (errs, rs.1).

(** [ConstantSynth::synthesize], lines 264-391; [result] is the caller's
    map, returned together with the collector. *)
Definition synthesize (cs : ConstantSynth) (result : gmap positive expr)
  : M Output :=
  let src_state := sym_exec (src (t cs)) true in
  let tgt_state := sym_exec (tgt (t cs)) false in
  let pre_src_and := getPre src_state in
  let pre_tgt_and := getPre tgt_state in
  let pre_src_and := AndExpr_del pre_src_and pre_tgt_and in
  let pre_src := AndExpr_call pre_src_and in
  let pre_tgt := AndExpr_call pre_tgt_and in
  let axioms_expr := smt.mkBool true in
  let sv := returnVal src_state in
  let tv := returnVal tgt_state in
  let uvars := sv.2 in
  let qvars :=
    foldl (λ qvars e, {[ e ]} ∪ qvars) ∅
          (elements (getForAlls src_state)) in
  let dom_a := returnDomain src_state in
  let dom_b := returnDomain tgt_state in
  let dom := smt.mkAnd dom_a dom_b in
  let mk_fml := mk_fml (t cs) qvars uvars pre_src pre_tgt axioms_expr in
  let ty := Function_getType (src (t cs)) in
  let '(poison_cnstr, value_cnstr) :=
    Type_refines ty src_state tgt_state sv.1 tv.1 in
  do _ <-
    (if debug then
       dbg_write ("SV" +:+ nl +:+ StateValue_print sv.1 +:+ nl
                  +:+ "TV" +:+ nl +:+ StateValue_print tv.1 +:+ nl
                  +:+ "Value Constraints" +:+ nl
                  +:+ expr_print value_cnstr +:+ nl
                  +:+ "Poison Constraints" +:+ nl
                  +:+ expr_print poison_cnstr +:+ nl)
     else ret tt);
  let errs : Errors := [] in
  let var : option Value := None in
  let check_each_var := false in
  do domain_fml <- mk_fml (smt.notImplies dom_a dom_b);
  do main_fml <-
    mk_fml (smt.mkAnd (smt.mkAnd dom value_cnstr) poison_cnstr);
  Solver_check
    [ (domain_fml, domain_handler src_state tgt_state var check_each_var);
      (main_fml, main_handler src_state tgt_state) ]
    (errs, result).

End Synthesize.

End vectorsynth.

(** ** Meaning of terms

    What "logically equivalent" refers to: a standard first-order reading of
    the term language.  A quantifier ranges over the values of each bound
    variable's sort. *)

Inductive val :=
  | VBool (b : bool)
  | VBV (n : N).

Definition env : Type := var → val.

Definition has_sort (v : val) (s : sort) : Prop :=
  match v, s with
  | VBool _, SBool => True
  | VBV n, SBV bits => (n < 2 ^ bits)%N
  | _, _ => False
  end.

(** A denotation: a proposition, or a bit-vector value. *)
Inductive den :=
  | DProp (P : Prop)
  | DBV (n : N).

Definition truth (d : den) : Prop :=
  match d with DProp P => P | DBV _ => False end.

Definition den_eq (d1 d2 : den) : Prop :=
  match d1, d2 with
  | DProp P, DProp Q => P ↔ Q
  | DBV n, DBV m => n = m
  | _, _ => False
  end.

Fixpoint interp (ρ : env) (e : expr) : den :=
  match e with
  | EInvalid => DProp False
  | EVar x => match ρ x with VBool b => DProp (b = true) | VBV n => DBV n end
  | EBool b => DProp (b = true)
  | EUInt n bits => DBV (n mod 2 ^ bits)%N
  | ENot a => DProp (¬ truth (interp ρ a))
  | EAnd a b => DProp (truth (interp ρ a) ∧ truth (interp ρ b))
  | EOr a b => DProp (truth (interp ρ a) ∨ truth (interp ρ b))
  | EImplies a b => DProp (truth (interp ρ a) → truth (interp ρ b))
  | EEq a b => DProp (den_eq (interp ρ a) (interp ρ b))
  | EForAll xs body =>
      DProp (∀ ρ' : env,
               (∀ x, x ∉ xs → ρ' x = ρ x) →
               (∀ x, x ∈ xs → has_sort (ρ' x) (vsort x)) →
               truth (interp ρ' body))
  end.

(** [holds ρ e]: the formula [e] is true in the environment [ρ]. *)
Definition holds (ρ : env) (e : expr) : Prop := truth (interp ρ e).

(** A simplifier is sound when it keeps the meaning of every formula. *)
Definition simplify_sound (simp : expr → expr) : Prop :=
  ∀ ρ e, holds ρ (simp e) ↔ holds ρ e.


(** ** Reference definitions the claims are compared with *)

(** The fixed diagnostic of a result kind that is not [Sat], in the words of
    the spec's result taxonomy. *)
Definition diagnostic_of {Model : Type} (r : Result Model) : string :=
  match r with
  | Invalid => "Invalid expr"
  | Timeout => "Timeout"
  | SolverError reason => "SMT Error: " +:+ reason
  | Skipped => "Skip"
  | Unsat => "Unsat"
  | Sat _ => ""
  end.

(** A constant hole among the values of a state: an input (of either input
    class) whose name starts with the reserved prefix. *)
Definition is_hole (var : Value) : bool :=
  (is_Input var || is_ConstantInput var)
  && String.prefix vectorsynth.reservedc (getName var).

(** The map the spec asks for after a [Sat] main result: every hole of
    [values] bound to its value under the witness model, on top of what the
    caller's map held. *)
Definition recorded `{Solver} (m : Model)
    (values : list (Value * ValTy * bool)) (result : gmap positive expr)
  : gmap positive expr :=
  foldl (λ res '(var, val, used),
           if is_hole var
           then <[ addr var := Model_eval m (value val.1) false ]> res
           else res)
        result values.

(** The classifier of [var], if it is an [Input], evaluates to the numeral
    0 or 1 under the model: the checks of lines 123 and 128 pass. *)
Definition classifier_ok `{Solver} (m : Model) (var : Value) : bool :=
  match as_Input var with
  | None => true
  | Some tyvar =>
      match smt.isUInt (Model_eval m (EVar tyvar) true) with
      | Some n => bool_decide (n = 0%N) || bool_decide (n = 1%N)
      | None => false
      end
  end.


(** The successive values of [instances] at line 84, starting with the value
    the loop of lines 54-86 is entered with: the same loop as
    [instantiate_inputs], keeping every map it goes through. *)
Fixpoint instances_history `{Solver} `{Config} (inputs : list Value)
    (instances : emap) : M (list emap) :=
  match inputs with
  | [] => ret [instances]
  | i :: inputs' =>
      match as_Input i with
      | None => instances_history inputs' instances
      | Some x =>
          let instances' := instantiate_var x instances in
          if bool_decide (128 ≤ length instances') then
            ret [instances; instances']
          else
            do full <- hit_half_memory_limit;
            if full then ret [instances; instances']
            else
              do h <- instances_history inputs' instances';
              ret (instances :: h)
      end
  end.

(** ** Further reference definitions *)

(** The denotation of a value. *)
Definition den_of_val (v : val) : den :=
  match v with VBool b => DProp (b = true) | VBV n => DBV n end.

(** The classifier values the loop of lines 61-79 does not skip. *)
Definition enabled_values `{Config} : list N :=
  filter (λ i : N,
            ¬ (disable_undef_input = true ∧ i = 1%N)
            ∧ ¬ (disable_poison_input = true ∧ i = 2%N))
         [0%N; 1%N; 2%N].

(** The classifiers of the [Input]s among a function's inputs. *)
Definition classifiers (inputs : list Value) : list var :=
  omap as_Input inputs.

(** The query [is_undef] sends for [e] (line 100). *)
Definition undef_probe (e : expr) : expr :=
  smt.mkForAll (smt.vars e) (smt.mkNe (smt.mkVar "#undef" e) e).

(** [w'] differs from [w] at most by solver queries sent in between. *)
Definition only_queried (w w' : World) : Prop :=
  mem_calls w' = mem_calls w
  ∧ dbg w' = dbg w
  ∧ queries w `prefix_of` queries w'.

(** A computation that, when it returns, has at most sent solver queries. *)
Definition queries_only {A} (c : M A) : Prop :=
  ∀ w a w', c w = Some (a, w') → only_queried w w'.

(** Modelled from the spec: the non-poison flag symbolic execution gives the
    state value of an [Input].  The input's classifier ranges over "0 =
    concrete, 1 = undef, 2 = poison", so the input is poison exactly when its
    classifier is 2. *)
Definition Input_non_poison (tyvar : var) : expr :=
  smt.mkNe (EVar tyvar) (nums 2).

(** Model evaluation computes, as far as the flag of an input needs it: a
    numeral evaluates to itself, an equation whose sides evaluate to numerals
    of one width evaluates to its truth value, and a negation whose body
    evaluates to a boolean evaluates to the opposite boolean. *)
Definition eval_folds `{Solver} (m : Model) : Prop :=
  (∀ n bits, Model_eval m (EUInt n bits) false = EUInt n bits)
  ∧ (∀ a b n n' bits,
       Model_eval m a false = EUInt n bits →
       Model_eval m b false = EUInt n' bits →
       Model_eval m (EEq a b) false
       = EBool (bool_decide (n mod 2 ^ bits = n' mod 2 ^ bits)%N))
  ∧ (∀ a b,
       Model_eval m a false = EBool b →
       Model_eval m (ENot a) false = EBool (negb b)).



(** ** A concrete solver, IR and configuration

    Small executable instances of the three interfaces, used to run the
    model on concrete transforms. *)

Module demo.

(** A constant-folding simplifier. *)
Fixpoint simplify0 (e : expr) : expr :=
  match e with
  | ENot a =>
      match simplify0 a with
      | EBool b => EBool (negb b)
      | a' => ENot a'
      end
  | EAnd a b =>
      let a' := simplify0 a in
      let b' := simplify0 b in
      if smt.isFalse a' || smt.isFalse b' then EBool false
      else if smt.isTrue a' && smt.isTrue b' then EBool true
      else EAnd a' b'
  | EOr a b =>
      let a' := simplify0 a in
      let b' := simplify0 b in
      if smt.isTrue a' || smt.isTrue b' then EBool true
      else if smt.isFalse a' && smt.isFalse b' then EBool false
      else EOr a' b'
  | EImplies a b => EImplies (simplify0 a) (simplify0 b)
  | EEq a b =>
      match simplify0 a, simplify0 b with
      | EUInt n bits, EUInt m bits' =>
          if decide (bits = bits') then
            EBool (bool_decide (n mod 2 ^ bits = m mod 2 ^ bits)%N)
          else EEq (EUInt n bits) (EUInt m bits')
      | a', b' => EEq a' b'
      end
  | EForAll xs body => EForAll xs (simplify0 body)
  | _ => e
  end.

(** A model: the assignments it fixes, earlier entries first. *)
Definition Model0 : Type := list (var * expr).

Definition default_of (s : sort) : expr :=
  match s with SBool => EBool false | SBV bits => EUInt 0 bits end.

Definition eval0 (m : Model0) (e : expr) (complete : bool) : expr :=
  let e1 := foldl (λ e '(x, v), smt.subst x v e) e m in
  let e2 :=
    if complete then
      foldl (λ e x, smt.subst x (default_of (vsort x)) e) e1
            (elements (smt.vars e1))
    else e1 in
  simplify0 e2.

Definition solver (answers : nat → expr → Result Model0) : Solver :=
  {| Model := Model0;
     simplify := simplify0;
     solve := answers;
     Model_eval := eval0;
     no_model := [] |}.

Definition ir (S : Solver) (exec : Function → bool → State unit) : IR :=
  {| Memory := unit;
     sym_exec := exec;
     Memory_print := λ _ _, "";
     Value_print := getName;
     StateValue_print := λ _, "<value>";
     expr_print := λ _, "<expr>";
     Type_printVal := λ _ _ _, "<const>";
     Type_extract := λ _ sv _, sv;
     Type_refines := λ _ _ _ a b,
       (EImplies (non_poison a) (non_poison b), EEq (value a) (value b));
     isUndef := λ x, String.prefix "undef" (vname x) |}.

Definition config (answers : nat → bool) : Config :=
  {| disable_undef_input := false;
     disable_poison_input := false;
     debug := false;
     half_memory_answers := answers |}.

(** A dispatcher that asks the solver about each formula in turn and hands
    the answer to the formula's handler unless the answer is [Unsat]. *)
Fixpoint check_each (S : Solver) (qs : list (expr * vectorsynth.Handler))
    (out : vectorsynth.Output) : M vectorsynth.Output :=
  match qs with
  | [] => ret out
  | (q, handler) :: qs' =>
      do r <- check_expr q;
      if isUnsat r then check_each S qs' out
      else
        do out' <- handler r out;
        check_each S qs' out'
  end.

Definition dispatcher (S : Solver) : vectorsynth.Dispatcher :=
  {| vectorsynth.Solver_check := check_each S |}.

Definition never_full : nat → bool := λ _, false.
Definition always_full : nat → bool := λ _, true.

Definition w0 : World := MkWorld 0 [] "".

(** Variables and values used by the examples. *)
Definition bv8 (name : string) : var := MkVar name (SBV 8).
Definition bv2 (name : string) : var := MkVar name (SBV 2).
Definition boolv (name : string) : var := MkVar name SBool.

Definition i8 : Ty := ScalarTy "i8".

Definition input (a : positive) (name : string) : Value :=
  MkValue a (IsInput (bv2 ("ty_" +:+ name))) name i8.

(** The state value symbolic execution gives an input: its own variable,
    poison exactly when the classifier is 2. *)
Definition input_value (name : string) : StateValue :=
  MkStateValue (EVar (bv8 name))
               (ENot (EEq (EVar (bv2 ("ty_" +:+ name))) (EUInt 2 2))).

Definition state_of (is_src : bool) (values : list (Value * ValTy * bool))
    (ret : StateValue) : State unit :=
  MkState unit is_src [] values ∅ (EBool true) (ret, ∅) tt.

(** A transform without constant holes: both sides return the input. *)
Definition x_in : Value := input 1 "%x".
Definition plain_values : list (Value * ValTy * bool) :=
  [ (x_in, (input_value "%x", ∅), true) ].
Definition plain_src : State unit :=
  state_of true plain_values (input_value "%x").
Definition plain_tgt : State unit :=
  state_of false plain_values (input_value "%x").
Definition plain_exec (f : Function) (is_src : bool) : State unit :=
  if is_src then plain_src else plain_tgt.

(** A target with one constant hole. *)
Definition hole : Value := input 7 "%_reservedc1".
Definition hole_values : list (Value * ValTy * bool) :=
  [ (x_in, (input_value "%x", ∅), true);
    (hole, (input_value "%_reservedc1", ∅), true) ].
Definition hole_tgt : State unit :=
  state_of false hole_values (input_value "%_reservedc1").

(** A witness model: the hole is 1, both inputs are concrete. *)
Definition hole_model : Model0 :=
  [ (bv8 "%_reservedc1", EUInt 1 8);
    (bv2 "ty_%_reservedc1", EUInt 0 2);
    (bv8 "%x", EUInt 5 8);
    (bv2 "ty_%x", EUInt 0 2) ].

(** A model that makes the input [%x] undef. *)
Definition undef_model : Model0 :=
  [ (bv2 "ty_%x", EUInt 1 2); (bv8 "%x", EUInt 5 8) ].

(** Five inputs and a term in which every classifier occurs, each compared
    with a free variable of its own. *)
Definition five_inputs : list Value :=
  [ input 1 "%a"; input 2 "%b"; input 3 "%c"; input 4 "%d"; input 5 "%e" ].
Definition five_term : expr :=
  foldr (λ i acc,
           EAnd (EEq (EVar (bv2 ("ty_" +:+ getName i)))
                     (EVar (bv2 ("k_" +:+ getName i)))) acc)
        (EBool true) five_inputs.
Definition five_t : Transform :=
  MkTransform (MkFunction five_inputs i8 []) (MkFunction five_inputs i8 []).

End demo.

Section SemanticsFacts.

Lemma den_eq_refl d : den_eq d d.
Proof. destruct d; simpl; tauto. Qed.

Lemma den_eq_truth d1 d2 : den_eq d1 d2 → truth d1 ↔ truth d2.
Proof. destruct d1, d2; simpl; tauto. Qed.

Lemma den_eq_cong a a' b b' :
  den_eq a a' → den_eq b b' → den_eq a b ↔ den_eq a' b'.
Proof.
  destruct a, a', b, b'; simpl; try tauto; intros; subst; tauto.
Qed.

(** Substituting a boolean literal is the same as updating the
    environment. *)
Lemma interp_subst_bool x c e :
  ∀ ρ ρ2 : env,
    (∀ y, ρ2 y = if decide (y = x) then VBool c else ρ y) →
    den_eq (interp ρ (smt.subst x (EBool c) e)) (interp ρ2 e).
Proof.
  induction e as [|y|b|n bits|a IHa|a IHa b IHb|a IHa b IHb
                 |a IHa b IHb|a IHa b IHb|xs body IH];
    intros ρ ρ2 Hρ; simpl.
  - tauto.
  - destruct (decide (y = x)) as [->|Hne]; simpl.
    + rewrite Hρ, decide_True by done. simpl. tauto.
    + rewrite Hρ, decide_False by done. apply den_eq_refl.
  - tauto.
  - reflexivity.
  - pose proof (den_eq_truth _ _ (IHa ρ ρ2 Hρ)). tauto.
  - pose proof (den_eq_truth _ _ (IHa ρ ρ2 Hρ)).
    pose proof (den_eq_truth _ _ (IHb ρ ρ2 Hρ)). tauto.
  - pose proof (den_eq_truth _ _ (IHa ρ ρ2 Hρ)).
    pose proof (den_eq_truth _ _ (IHb ρ ρ2 Hρ)). tauto.
  - pose proof (den_eq_truth _ _ (IHa ρ ρ2 Hρ)).
    pose proof (den_eq_truth _ _ (IHb ρ ρ2 Hρ)). tauto.
  - apply den_eq_cong; auto.
  - destruct (decide (x ∈ xs)) as [Hin|Hnin]; simpl.
    + split; intros Hall ρ' Hout Hsort; apply Hall; try done.
      * intros y Hy. rewrite Hout by done. rewrite Hρ.
        rewrite decide_False; [done|]. intros ->. done.
      * intros y Hy. rewrite Hout by done. rewrite Hρ.
        rewrite decide_False; [done|]. intros ->. done.
    + split; intros Hall ρ' Hout Hsort.
      * set (ρ1 := λ y, if decide (y ∈ xs) then ρ' y else ρ y).
        assert (Hrel : ∀ y, ρ' y = if decide (y = x) then VBool c else ρ1 y).
        { intros y. unfold ρ1.
          destruct (decide (y = x)) as [->|Hne].
          - rewrite Hout, Hρ by done. by rewrite decide_True.
          - destruct (decide (y ∈ xs)); [done|].
            rewrite Hout, Hρ by done. by rewrite decide_False. }
        apply (den_eq_truth _ _ (IH ρ1 ρ' Hrel)).
        apply Hall; unfold ρ1.
        -- intros y Hy. by rewrite decide_False.
        -- intros y Hy. rewrite decide_True by done. by apply Hsort.
      * set (ρ3 := λ y, if decide (y = x) then VBool c else ρ' y).
        assert (Hrel : ∀ y, ρ3 y = if decide (y = x) then VBool c else ρ' y)
          by done.
        apply (den_eq_truth _ _ (IH ρ' ρ3 Hrel)).
        apply Hall; unfold ρ3.
        -- intros y Hy. rewrite Hρ. destruct (decide (y = x)); [done|].
           by apply Hout.
        -- intros y Hy. rewrite decide_False; [by apply Hsort|].
           intros ->. done.
Qed.

End SemanticsFacts.

(** ** Boolean-variable elimination (lines 36-43) *)

Section ElimBool.
Context `{Solver} `{Config}.
Hypothesis simplify_ok : simplify_sound simplify.

(** One case split: quantifying over a boolean [x] is the conjunction of
    the two instances. *)
Lemma elim_bool_step_equiv (qvars : gset var) (e : expr) (x : var) ρ :
  x ∈ qvars → vsort x = SBool →
  holds ρ (smt.mkForAll (qvars ∖ {[ x ]})
             (smt.mkAnd (simplify (smt.subst x (smt.mkBool true) e))
                        (simplify (smt.subst x (smt.mkBool false) e))))
  ↔ holds ρ (smt.mkForAll qvars e).
Proof.
  intros Hx Hbool. unfold holds, smt.mkForAll, smt.mkAnd, smt.mkBool. simpl.
  split; intros Hall ρ' Hout Hsort.
  - set (ρ1 := λ y, if decide (y = x) then ρ x else ρ' y).
    assert (H1 : truth (interp ρ1 (simplify (smt.subst x (EBool true) e)))
                 ∧ truth (interp ρ1 (simplify (smt.subst x (EBool false) e)))).
    { apply Hall; unfold ρ1.
      - intros y Hy. destruct (decide (y = x)) as [->|Hne]; [done|].
        apply Hout. intros Hq. apply Hy, elem_of_difference.
        split; [done|]. by intros ?%elem_of_singleton.
      - intros y [Hy Hne]%elem_of_difference.
        rewrite decide_False by (intros ->; apply Hne, elem_of_singleton; done).
        by apply Hsort. }
    pose proof (Hsort x Hx) as Hsx. rewrite Hbool in Hsx.
    destruct (ρ' x) as [c|n] eqn:Hρx; [|done].
    assert (Hc : truth (interp ρ1 (smt.subst x (EBool c) e))).
    { destruct c; [apply simplify_ok, H1|apply simplify_ok, H1]. }
    refine (proj1 (den_eq_truth _ _ (interp_subst_bool x c e ρ1 ρ' _)) Hc).
    intros y. unfold ρ1. destruct (decide (y = x)) as [->|]; done.
  - assert (Hb : ∀ c, truth (interp ρ' (smt.subst x (EBool c) e))).
    { intros c.
      set (ρ2 := λ y, if decide (y = x) then VBool c else ρ' y).
      refine (proj2 (den_eq_truth _ _ (interp_subst_bool x c e ρ' ρ2 _)) _);
        [done|].
      apply Hall; unfold ρ2.
      - intros y Hy. rewrite decide_False by (by intros ->).
        apply Hout. by intros [? _]%elem_of_difference.
      - intros y Hy. destruct (decide (y = x)) as [->|Hne].
        + by rewrite Hbool.
        + apply Hsort, elem_of_difference.
          split; [done|]. by intros ?%elem_of_singleton. }
    split; apply simplify_ok, Hb.
Qed.

(** The loop over a duplicate-free list of still-quantified variables. *)
Lemma elim_bool_loop_equiv (l : list var) :
  ∀ (qvars : gset var) (e : expr),
    NoDup l → (∀ x, x ∈ l → x ∈ qvars) →
    let r := foldl elim_bool_step (qvars, e) l in
    (∀ ρ, holds ρ (smt.mkForAll r.1 r.2) ↔ holds ρ (smt.mkForAll qvars e))
    ∧ (∀ x, x ∈ r.1 ↔ x ∈ qvars ∧ ¬ (x ∈ l ∧ vsort x = SBool)).
Proof.
  induction l as [|x l IH]; intros qvars e Hnd Hsub; simpl.
  - split; [done|]. intros x. rewrite elem_of_nil. tauto.
  - apply NoDup_cons in Hnd as [Hxl Hnd].
    unfold smt.isBool. destruct (decide (vsort x = SBool)) as [Hb|Hb].
    + rewrite bool_decide_eq_true_2 by done. simpl.
      destruct (IH (qvars ∖ {[ x ]})
                  (smt.mkAnd (simplify (smt.subst x (smt.mkBool true) e))
                     (simplify (smt.subst x (smt.mkBool false) e))) Hnd)
        as [Heq Hmem].
      { intros y Hy. apply elem_of_difference. split.
        - apply Hsub. by right.
        - intros ->%elem_of_singleton. done. }
      split.
      * intros ρ. rewrite Heq. apply elim_bool_step_equiv; [|done].
        apply Hsub. by left.
      * intros y. rewrite Hmem, elem_of_difference, elem_of_singleton,
          elem_of_cons.
        split.
        -- intros [[Hy Hne] Hn]. split; [done|].
           intros [[->|Hyl] Hs]; [done|]. apply Hn. done.
        -- intros [Hy Hn]. split; [split; [done|]|].
           ++ intros ->. apply Hn. split; [by left|done].
           ++ intros [Hyl Hs]. apply Hn. split; [by right|done].
    + rewrite bool_decide_eq_false_2 by done. simpl.
      destruct (IH qvars e Hnd) as [Heq Hmem].
      { intros y Hy. apply Hsub. by right. }
      split; [done|].
      intros y. rewrite Hmem, elem_of_cons. split.
      * intros [Hy Hn]. split; [done|].
        intros [[->|Hyl] Hs]; [done|]. apply Hn. done.
      * intros [Hy Hn]. split; [done|].
        intros [Hyl Hs]. apply Hn. split; [by right|done].
Qed.

End ElimBool.

(** ** The constant-folding simplifier keeps meanings *)

Section Simplify0.

Lemma isFalse_inv e : smt.isFalse e = true → e = EBool false.
Proof. destruct e as [| |[]| | | | | | |]; simpl; congruence. Qed.

Lemma isTrue_inv e : smt.isTrue e = true → e = EBool true.
Proof. destruct e as [| |[]| | | | | | |]; simpl; congruence. Qed.

Lemma simplify0_den ρ e : den_eq (interp ρ (demo.simplify0 e)) (interp ρ e).
Proof.
  revert ρ.
  induction e as [|y|b|n bits|a IHa|a IHa b IHb|a IHa b IHb
                 |a IHa b IHb|a IHa b IHb|xs body IH];
    intros ρ; try apply den_eq_refl.
  - simpl. pose proof (den_eq_truth _ _ (IHa ρ)) as Ha.
    destruct (demo.simplify0 a) as [| |[]| | | | | | |];
      simpl in *; intuition congruence.
  - simpl. pose proof (den_eq_truth _ _ (IHa ρ)) as Ha.
    pose proof (den_eq_truth _ _ (IHb ρ)) as Hb.
    destruct (smt.isFalse (demo.simplify0 a)) eqn:Fa.
    { apply isFalse_inv in Fa. rewrite Fa in Ha. simpl in *.
      intuition congruence. }
    destruct (smt.isFalse (demo.simplify0 b)) eqn:Fb.
    { apply isFalse_inv in Fb. rewrite Fb in Hb. simpl in *.
      intuition congruence. }
    simpl.
    destruct (smt.isTrue (demo.simplify0 a)) eqn:Ta; simpl;
      [|simpl; tauto].
    destruct (smt.isTrue (demo.simplify0 b)) eqn:Tb; simpl; [|tauto].
    apply isTrue_inv in Ta, Tb. rewrite Ta in Ha. rewrite Tb in Hb.
    simpl in *. tauto.
  - simpl. pose proof (den_eq_truth _ _ (IHa ρ)) as Ha.
    pose proof (den_eq_truth _ _ (IHb ρ)) as Hb.
    destruct (smt.isTrue (demo.simplify0 a)) eqn:Ta.
    { apply isTrue_inv in Ta. rewrite Ta in Ha. simpl in *. tauto. }
    destruct (smt.isTrue (demo.simplify0 b)) eqn:Tb.
    { apply isTrue_inv in Tb. rewrite Tb in Hb. simpl in *. tauto. }
    simpl.
    destruct (smt.isFalse (demo.simplify0 a)) eqn:Fa; simpl; [|tauto].
    destruct (smt.isFalse (demo.simplify0 b)) eqn:Fb; simpl; [|tauto].
    apply isFalse_inv in Fa, Fb. rewrite Fa in Ha. rewrite Fb in Hb.
    simpl in *. intuition congruence.
  - simpl. pose proof (den_eq_truth _ _ (IHa ρ)).
    pose proof (den_eq_truth _ _ (IHb ρ)). tauto.
  - assert (Hgen : den_eq (interp ρ (EEq (demo.simplify0 a) (demo.simplify0 b)))
                          (interp ρ (EEq a b))).
    { simpl. apply den_eq_cong; auto. }
    simpl. simpl in Hgen.
    destruct (demo.simplify0 a) as [| | |n bits| | | | | |]; try exact Hgen.
    destruct (demo.simplify0 b) as [| | |m bits'| | | | | |]; try exact Hgen.
    destruct (decide (bits = bits')) as [<-|]; [|exact Hgen].
    simpl in *. rewrite <- Hgen. rewrite bool_decide_eq_true. tauto.
  - simpl. split; intros Hall ρ' Hout Hsort.
    + apply (den_eq_truth _ _ (IH ρ')). by apply Hall.
    + apply (den_eq_truth _ _ (IH ρ')). by apply Hall.
Qed.

Lemma simplify0_sound : simplify_sound demo.simplify0.
Proof. intros ρ e. apply den_eq_truth, simplify0_den. Qed.

End Simplify0.

(** ** The renderer returns when the classifier checks pass *)

Section RenderTotal.
Context `{IR}.

(** Induction on types, through the element lists. *)
Lemma Ty_elems_ind (P : Ty → Prop) :
  (∀ name, P (ScalarTy name)) →
  (∀ elems, Forall P elems → P (StructTy elems)) →
  (∀ elems, Forall P elems → P (VectorTy elems)) →
  ∀ ty, P ty.
Proof.
  intros Hs Hst Hv. fix IH 1. intros [name|elems|elems].
  - apply Hs.
  - apply Hst. induction elems as [|ty elems IHl]; constructor; auto.
  - apply Hv. induction elems as [|ty elems IHl]; constructor; auto.
Qed.

Lemma print_single_varval_total st m var type val w :
  classifier_ok m var = true →
  ∃ s w', print_single_varval st m var type val w = Some (s, w').
Proof.
  intros Hok. unfold print_single_varval.
  destruct (negb (StateValue_isValid val)); [by eexists _, _|].
  destruct (negb _ || _); [by eexists _, _|].
  unfold bind. unfold classifier_ok in Hok.
  destruct (as_Input var) as [tyvar|]; simpl.
  - destruct (smt.isUInt _) as [n|]; [|done].
    destruct (bool_decide (n = 1%N)) eqn:H1; simpl; [by eexists _, _|].
    destruct (bool_decide (n = 0%N)) eqn:H0'; [|done]. simpl.
    unfold is_undef. destruct (smt.isConst (Model_eval m (value val) false));
      simpl; [by eexists _, _|].
    unfold bind, check_expr, ret.
    destruct (isUnsat _); [by eexists _, _|].
    simpl. destruct (existsb _ _); by eexists _, _.
  - unfold is_undef. destruct (smt.isConst (Model_eval m (value val) false));
      simpl; [by eexists _, _|].
    unfold bind, check_expr, ret.
    destruct (isUnsat _); [by eexists _, _|].
    simpl. destruct (existsb _ _); by eexists _, _.
Qed.

Lemma print_children_total (render : Ty → StateValue → M string) agg val
    (tys : list Ty) :
  Forall (λ ty, ∀ v w, ∃ s w', render ty v w = Some (s, w')) tys →
  ∀ i w, ∃ s w', print_children render agg val i tys w = Some (s, w').
Proof.
  induction 1 as [|ty tys Hty _ IH]; intros i w; simpl.
  - by eexists _, _.
  - unfold bind at 1.
    destruct (Hty (Type_extract agg val i) w) as (s & w1 & ->).
    unfold bind at 1. destruct (IH (S i) w1) as (r & w2 & ->).
    by eexists _, _.
Qed.

Lemma print_varval_total st m var :
  classifier_ok m var = true →
  ∀ type val w, ∃ s w', print_varval st m var type val w = Some (s, w').
Proof.
  intros Hok type.
  induction type as [name|elems IH|elems IH] using Ty_elems_ind;
    intros val w.
  - simpl. by apply print_single_varval_total.
  - simpl. unfold bind at 1.
    destruct (print_children_total (print_varval st m var)
                (StructTy elems) val elems IH 0%nat w) as (s & w' & ->).
    by eexists _, _.
  - simpl. unfold bind at 1.
    destruct (print_children_total (print_varval st m var)
                (VectorTy elems) val elems IH 0%nat w) as (s & w' & ->).
    by eexists _, _.
Qed.

End RenderTotal.

(** ** What the main handler records *)

Section Recorded.
Context `{IR}.

Lemma recorded_lookup_other (m : Model) (a : positive) values :
  ∀ result : gmap positive expr,
    (∀ var val used,
       (var, val, used) ∈ values → is_hole var = true → addr var ≠ a) →
    recorded m values result !! a = result !! a.
Proof.
  induction values as [|[[var val] used] values IH]; intros result Hne;
    [done|].
  simpl. change (foldl _ ?r values) with (recorded m values r).
  rewrite IH.
  - destruct (is_hole var) eqn:Hh; [|done].
    apply lookup_insert_ne. apply (Hne var val used); [by left|done].
  - intros var' val' used' Hin. apply (Hne var' val' used'). by right.
Qed.

Lemma recorded_lookup_hole (m : Model) values :
  ∀ (result : gmap positive expr) var val used,
    NoDup (addr <$> values.*1.*1) →
    (var, val, used) ∈ values → is_hole var = true →
    recorded m values result !! addr var
    = Some (Model_eval m (value val.1) false).
Proof.
  induction values as [|[[var0 val0] used0] values IH];
    intros result var val used Hnd Hin Hh.
  - by apply elem_of_nil in Hin.
  - simpl in Hnd. apply NoDup_cons in Hnd as [Hfresh Hnd].
    simpl. change (foldl _ ?r values) with (recorded m values r).
    apply elem_of_cons in Hin as [Heq|Hin].
    + injection Heq as <- <- <-. rewrite Hh.
      rewrite recorded_lookup_other; [apply lookup_insert_eq|].
      intros var' val' used' Hin' _ Heq. apply Hfresh.
      rewrite <- Heq. apply list_elem_of_fmap. exists var'. split; [done|].
      apply list_elem_of_fmap. exists (var', val'). split; [done|].
      apply list_elem_of_fmap. by exists (var', val', used').
    + by eapply IH.
Qed.

Lemma record_constants_recorded src_state (m : Model) values :
  ∀ (result : gmap positive expr) s w out w',
    vectorsynth.record_constants src_state m values result s w
    = Some (out, w') →
    out.1 = recorded m values result.
Proof.
  induction values as [|[[var val] used] values IH];
    intros result s w out w' Hrun; simpl in *.
  - by injection Hrun as <- _.
  - change (foldl _ ?r values) with (recorded m values r).
    unfold is_hole.
    destruct (is_Input var || is_ConstantInput var) eqn:Hin.
    + replace (negb (is_Input var) && negb (is_ConstantInput var))
        with false in Hrun
        by (destruct (is_Input var), (is_ConstantInput var); done).
      simpl. fold vectorsynth.reservedc in Hrun.
      destruct (String.prefix vectorsynth.reservedc (getName var)).
      * unfold bind in Hrun.
        destruct (print_varval _ _ _ _ _ _) as [[txt w1]|]; [|done].
        by eapply IH.
      * by eapply IH.
    + replace (negb (is_Input var) && negb (is_ConstantInput var))
        with true in Hrun
        by (destruct (is_Input var), (is_ConstantInput var); done).
      simpl. by eapply IH.
Qed.

Lemma record_constants_total src_state (m : Model) values :
  forallb (λ x, classifier_ok m x.1.1) values = true →
  ∀ (result : gmap positive expr) s w,
    ∃ out w',
      vectorsynth.record_constants src_state m values result s w
      = Some (out, w').
Proof.
  induction values as [|[[var val] used] values IH]; intros Hok result s w;
    simpl in *.
  - by eexists _, _.
  - apply andb_true_iff in Hok as [Hvar Hok].
    destruct (negb (is_Input var) && negb (is_ConstantInput var));
      [by apply IH|].
    destruct (String.prefix _ _); [|by apply IH].
    unfold bind.
    destruct (print_varval_total src_state m var Hvar (getType var) val.1 w)
      as (txt & w1 & ->).
    by apply IH.
Qed.

End Recorded.

(** ** Growth of the instances map *)

Section InstancesSize.
Context `{Solver} `{Config}.

Lemma emap_assign_length k v m :
  length (emap_assign k v m) ≤ S (length m).
Proof.
  induction m as [|[k' v'] m IH]; simpl; [lia|].
  destruct (decide (k' = k)); simpl; lia.
Qed.

Lemma emap_try_emplace_length k v m :
  length (emap_try_emplace k v m) ≤ S (length m).
Proof.
  unfold emap_try_emplace. destruct (emap_mem k m); [lia|].
  rewrite length_app. simpl. lia.
Qed.

(** One entry adds at most one new entry per value of [i] still to try. *)
Lemma instantiate_entry_length x e v rest :
  ∀ instances2,
    length (instantiate_entry x e v rest instances2)
    ≤ length instances2 + length rest.
Proof.
  induction rest as [|i rest IH]; intros instances2; simpl; [lia|].
  destruct (disable_undef_input && bool_decide (i = 1%N)).
  { specialize (IH instances2). lia. }
  destruct (disable_poison_input && bool_decide (i = 2%N)).
  { specialize (IH instances2). lia. }
  destruct (smt.eq _ e).
  { pose proof (emap_assign_length (smt.subst x (nums i) e) v instances2).
    lia. }
  destruct (smt.isFalse _).
  { specialize (IH instances2). lia. }
  match goal with
  | |- context [emap_try_emplace ?k ?g instances2] =>
      specialize (IH (emap_try_emplace k g instances2));
      pose proof (emap_try_emplace_length k g instances2)
  end.
  lia.
Qed.

Lemma instantiate_var_length_acc x instances :
  ∀ acc,
    length (foldl (λ instances2 '(e, v),
                     instantiate_entry x e v [0%N; 1%N; 2%N] instances2)
                  acc instances)
    ≤ length acc + 3 * length instances.
Proof.
  induction instances as [|[e v] instances IH]; intros acc; simpl; [lia|].
  etrans; [apply IH|].
  pose proof (instantiate_entry_length x e v [0%N; 1%N; 2%N] acc).
  simpl in *. lia.
Qed.

(** Processing one input at most triples the map. *)
Lemma instantiate_var_length x instances :
  length (instantiate_var x instances) ≤ 3 * length instances.
Proof.
  unfold instantiate_var.
  pose proof (instantiate_var_length_acc x instances []). simpl in *. lia.
Qed.

(** The loop over the inputs returns, and with at most 381 entries when
    it starts below the threshold. *)
Lemma instantiate_inputs_bounded inputs :
  ∀ instances w,
    length instances < 128 →
    ∃ instances' w',
      instantiate_inputs inputs instances w = Some (instances', w')
      ∧ length instances' ≤ 381.
Proof.
  induction inputs as [|i inputs IH]; intros instances w Hlt; simpl.
  - eexists _, _. split; [reflexivity|lia].
  - destruct (as_Input i) as [x|]; [|by apply IH].
    pose proof (instantiate_var_length x instances) as Hgrow.
    destruct (bool_decide (128 ≤ length (instantiate_var x instances)))
      eqn:Hbig.
    + eexists _, _. split; [reflexivity|lia].
    + apply bool_decide_eq_false in Hbig.
      unfold bind, hit_half_memory_limit.
      destruct (half_memory_answers (mem_calls w)).
      * eexists _, _. split; [reflexivity|lia].
      * apply IH. lia.
Qed.

(** The history ends with what the loop returns, and every map in it is
    within the bound. *)
Lemma instances_history_bounded inputs :
  ∀ instances w,
    length instances < 128 →
    ∃ h w',
      instances_history inputs instances w = Some (h, w')
      ∧ instantiate_inputs inputs instances w
        = Some (default instances (last h), w')
      ∧ head h = Some instances
      ∧ Forall (λ m : emap, length m ≤ 381) h.
Proof.
  induction inputs as [|i inputs IH]; intros instances w Hlt; simpl.
  - eexists _, _. repeat split; try reflexivity.
    repeat (apply Forall_cons_2; [lia|]). apply Forall_nil_2.
  - destruct (as_Input i) as [x|]; [|by apply IH].
    pose proof (instantiate_var_length x instances) as Hgrow.
    destruct (bool_decide (128 ≤ length (instantiate_var x instances)))
      eqn:Hbig.
    + eexists _, _. repeat split; try reflexivity.
      repeat (apply Forall_cons_2; [lia|]). apply Forall_nil_2.
    + apply bool_decide_eq_false in Hbig.
      unfold bind, hit_half_memory_limit.
      destruct (half_memory_answers (mem_calls w)).
      * eexists _, _. repeat split; try reflexivity.
        repeat (apply Forall_cons_2; [lia|]). apply Forall_nil_2.
      * destruct (IH (instantiate_var x instances)
                    (MkWorld (S (mem_calls w)) (queries w) (dbg w)))
          as (h & w' & -> & -> & Hhead & Hall); [lia|].
        eexists _, _. split; [reflexivity|]. split; [|split].
        -- destruct h as [|m h]; [done|].
           change (last (instances :: m :: h)) with (last (m :: h)).
           destruct (last (m :: h)) eqn:Hlast; [done|].
           by apply last_None in Hlast.
        -- done.
        -- apply Forall_cons_2; [lia|done].
Qed.

End InstancesSize.

(** * The claims *)

(** ** C5: boolean-variable elimination *)

(** C5.  For every term [e] and every set [qvars0] of quantified variables,
    the elimination loop of [preprocess] (replace the term by
    [e[x:=true] && e[x:=false]], both sides simplified, for every boolean
    [x] of [qvars0], and erase [x] from the quantifier set) leaves a term
    whose universal closure over the reduced set is logically equivalent to
    the universal closure of [e] over [qvars0], however many boolean
    variables there are; the reduced set is [qvars0] without its boolean
    variables.  The simplifier is assumed to keep meanings. *)
Theorem elim_bool_qvars_equivalent `{Solver} :
  simplify_sound simplify →
  ∀ (qvars0 : gset var) (e : expr),
    let r := elim_bool_qvars qvars0 e in
    (∀ ρ, holds ρ (smt.mkForAll r.1 r.2) ↔ holds ρ (smt.mkForAll qvars0 e))
    ∧ (∀ x, x ∈ r.1 ↔ x ∈ qvars0 ∧ vsort x ≠ SBool).
Proof.
  intros Hsound qvars0 e r.
  destruct (elim_bool_loop_equiv Hsound (elements qvars0) qvars0 e)
    as [Heq Hmem].
  - apply NoDup_elements.
  - intros x. by rewrite elem_of_elements.
  - split; [exact Heq|].
    intros x. unfold r, elim_bool_qvars. rewrite Hmem, elem_of_elements.
    tauto.
Qed.

Lemma elim_bool_qvars_equivalent_witness :
  let S := demo.solver (λ _ _, Unsat) in
  let p := demo.boolv "p" in
  let q := demo.boolv "q" in
  let x := demo.bv8 "x" in
  let e := EOr (EVar p) (EAnd (EVar q) (EEq (EVar x) (EUInt 3 8))) in
  let r := @elim_bool_qvars S {[ p; x; q ]} e in
  (∀ ρ, holds ρ (smt.mkForAll r.1 r.2)
        ↔ holds ρ (smt.mkForAll {[ p; x; q ]} e))
  ∧ (∀ y, y ∈ r.1 ↔ y ∈ ({[ p; x; q ]} : gset var) ∧ vsort y ≠ SBool).
Proof.
  intros S p q x e.
  exact (@elim_bool_qvars_equivalent S simplify0_sound {[ p; x; q ]} e).
Defined.

(** ** C6: the fallbacks of [preprocess] *)

(** C6.  [preprocess] returns the plain universal closure in its fallback
    cases.  If the half-memory budget is exhausted on entry, the result is
    [forall(qvars0, e)], untouched.  Otherwise, after the boolean variables
    have been eliminated, if [undef_qvars] is empty, or the budget is found
    exhausted at that point, the result is the closure of the rewritten term
    over the reduced quantifier set; no classifier is instantiated, and the
    governor has been asked once, respectively twice. *)
Theorem preprocess_fallbacks `{Solver} `{Config}
    (t : Transform) (qvars0 undef_qvars : gset var) (e : expr) (w : World) :
  let r := elim_bool_qvars qvars0 e in
  let asked n := MkWorld (n + mem_calls w) (queries w) (dbg w) in
  (half_memory_answers (mem_calls w) = true →
   preprocess t qvars0 undef_qvars e w
   = Some (smt.mkForAll qvars0 e, asked 1%nat))
  ∧ (half_memory_answers (mem_calls w) = false →
     undef_qvars = ∅ →
     preprocess t qvars0 undef_qvars e w
     = Some (smt.mkForAll r.1 r.2, asked 1%nat))
  ∧ (half_memory_answers (mem_calls w) = false →
     undef_qvars ≠ ∅ →
     half_memory_answers (S (mem_calls w)) = true →
     preprocess t qvars0 undef_qvars e w
     = Some (smt.mkForAll r.1 r.2, asked 2%nat)).
Proof.
  intros r asked.
  unfold preprocess, bind, hit_half_memory_limit, ret. simpl.
  fold r. destruct r as [qvars e'] eqn:Hr. simpl.
  split; [|split].
  - intros ->. done.
  - intros -> ->. by rewrite bool_decide_eq_true_2.
  - intros -> Hne Hfull. rewrite bool_decide_eq_false_2 by done.
    simpl. by rewrite Hfull.
Qed.

Lemma preprocess_fallbacks_witness :
  let S := demo.solver (λ _ _, Unsat) in
  let p := demo.boolv "p" in
  let x := demo.bv8 "x" in
  let u := demo.bv8 "undef!0" in
  let e := EOr (EVar p) (EEq (EVar x) (EUInt 3 8)) in
  let t := MkTransform (MkFunction [demo.input 1 "%a"] demo.i8 [])
                       (MkFunction [demo.input 2 "%a"] demo.i8 []) in
  let e' := EAnd (EBool true)
                 (EOr (EBool false) (EEq (EVar x) (EUInt 3 8))) in
  @preprocess S (demo.config demo.always_full) t {[ p; x ]} {[ u ]} e demo.w0
  = Some (smt.mkForAll {[ p; x ]} e, MkWorld 1 [] "")
  ∧ @preprocess S (demo.config demo.never_full) t {[ p; x ]} ∅ e demo.w0
    = Some (smt.mkForAll {[ x ]} e', MkWorld 1 [] "")
  ∧ @preprocess S (demo.config (λ n, bool_decide (n = 1%nat))) t
      {[ p; x ]} {[ u ]} e demo.w0
    = Some (smt.mkForAll {[ x ]} e', MkWorld 2 [] "").
Proof.
  intros S p x u e t e'.
  split; [|split].
  - exact (proj1 (@preprocess_fallbacks S (demo.config demo.always_full)
                    t {[ p; x ]} {[ u ]} e demo.w0) eq_refl).
  - exact (proj1 (proj2 (@preprocess_fallbacks S (demo.config demo.never_full)
                           t {[ p; x ]} ∅ e demo.w0)) eq_refl eq_refl).
  - refine (proj2 (proj2 (@preprocess_fallbacks S
                            (demo.config (λ n, bool_decide (n = 1%nat)))
                            t {[ p; x ]} {[ u ]} e demo.w0)) eq_refl _ eq_refl).
    vm_compute. discriminate.
Defined.

(** ** C10: the undef probe on constants *)

(** C10.  On a constant expression [is_undef] answers false and sends nothing
    to the solver (the world is unchanged).  On any other expression it sends
    exactly one query, "for all free variables of [e], a fresh variable
    [#undef] of [e]'s sort differs from [e]", and answers whether that query
    is unsatisfiable. *)
Theorem is_undef_const_no_query `{Solver} `{Config} (e : expr) (w : World) :
  (smt.isConst e = true → is_undef e w = Some (false, w))
  ∧ (smt.isConst e = false →
     let q := smt.mkForAll (smt.vars e) (smt.mkNe (smt.mkVar "#undef" e) e) in
     is_undef e w
     = Some (isUnsat (solve (length (queries w)) q),
             MkWorld (mem_calls w) (queries w ++ [q]) (dbg w))).
Proof.
  unfold is_undef. split; intros ->; reflexivity.
Qed.

Lemma is_undef_const_no_query_witness :
  let S := demo.solver (λ _ _, Unsat) in
  let C := demo.config demo.never_full in
  let x := demo.bv8 "x" in
  @is_undef S (EUInt 7 8) demo.w0 = Some (false, demo.w0)
  ∧ @is_undef S (EVar x) demo.w0
    = Some (true,
            MkWorld 0
              [EForAll {[ x ]} (ENot (EEq (EVar (demo.bv8 "#undef")) (EVar x)))]
              "").
Proof.
  intros S C x. split.
  - exact (proj1 (@is_undef_const_no_query S C (EUInt 7 8) demo.w0) eq_refl).
  - exact (proj2 (@is_undef_const_no_query S C (EVar x) demo.w0) eq_refl).
Defined.

(** ** C1: the obligation wrapper *)

(** C1.  [mk_fml] applied to a trivially false refinement term returns that
    term, which is [false], and asks nothing of the governor; applied to any
    other term it returns [axioms && preprocess(pre_tgt &&
    pre_src.implies(refines))].  In [synthesize] the main obligation is
    [mk_fml] of [dom && value_cnstr && poison_cnstr], where the pair
    (poison, value) is what the source function's return type's [refines]
    gives on the two states and their return values; the captures of
    [mk_fml] are the source's quantified variables, the undef variables of
    the source's return value, the source precondition less the clauses of
    the target's, the target precondition, and [true] for the axioms; the
    two wrapped formulas are what [Solver::check] is handed, whatever it
    does with them. *)
Theorem mk_fml_wraps `{IR} `{Config} {D : vectorsynth.Dispatcher} :
  (∀ (t : Transform) (qvars uvars : gset var) (pre_src pre_tgt axioms : expr)
     (refines : expr) (w : World),
     (smt.isFalse refines = true →
      refines = smt.mkBool false
      ∧ vectorsynth.mk_fml t qvars uvars pre_src pre_tgt axioms refines w
        = Some (smt.mkBool false, w))
     ∧ (smt.isFalse refines = false →
        vectorsynth.mk_fml t qvars uvars pre_src pre_tgt axioms refines w
        = match preprocess t qvars uvars
                  (smt.mkAnd pre_tgt (smt.implies pre_src refines)) w with
          | Some (p, w') => Some (smt.mkAnd axioms p, w')
          | None => None
          end))
  ∧ (∀ (cs : vectorsynth.ConstantSynth) (result : gmap positive expr),
       let src_state := sym_exec (src (vectorsynth.t cs)) true in
       let tgt_state := sym_exec (tgt (vectorsynth.t cs)) false in
       let pv := Type_refines (Function_getType (src (vectorsynth.t cs)))
                   src_state tgt_state
                   (returnVal src_state).1 (returnVal tgt_state).1 in
       let dom_a := returnDomain src_state in
       let dom_b := returnDomain tgt_state in
       let wrap :=
         vectorsynth.mk_fml (vectorsynth.t cs)
           (foldl (λ qvars e, {[ e ]} ∪ qvars) ∅
                  (elements (getForAlls src_state)))
           (returnVal src_state).2
           (AndExpr_call (AndExpr_del (getPre src_state) (getPre tgt_state)))
           (AndExpr_call (getPre tgt_state))
           (smt.mkBool true) in
       vectorsynth.synthesize cs result
       = (do _ <-
            (if debug then
               dbg_write
                 ("SV" +:+ nl +:+ StateValue_print (returnVal src_state).1
                  +:+ nl +:+ "TV" +:+ nl
                  +:+ StateValue_print (returnVal tgt_state).1 +:+ nl
                  +:+ "Value Constraints" +:+ nl +:+ expr_print pv.2 +:+ nl
                  +:+ "Poison Constraints" +:+ nl +:+ expr_print pv.1
                  +:+ nl)
             else ret tt);
            do domain_fml <- wrap (smt.notImplies dom_a dom_b);
            do main_fml <-
              wrap (smt.mkAnd (smt.mkAnd (smt.mkAnd dom_a dom_b) pv.2) pv.1);
            vectorsynth.Solver_check
              [ (domain_fml,
                 vectorsynth.domain_handler src_state tgt_state None false);
                (main_fml, vectorsynth.main_handler src_state tgt_state) ]
              ([], result))).
Proof.
  split.
  - intros t qvars uvars pre_src pre_tgt axioms refines w. split.
    + intros Hf. apply isFalse_inv in Hf. subst refines. done.
    + intros Hf. unfold vectorsynth.mk_fml, bind, ret. rewrite Hf.
      destruct (preprocess _ _ _ _ _) as [[p w']|]; done.
  - intros cs result. simpl. unfold vectorsynth.synthesize.
    destruct (Type_refines _ _ _ _ _) as [poison_cnstr value_cnstr].
    reflexivity.
Qed.

Lemma mk_fml_wraps_witness :
  let S := demo.solver (λ _ _, Unsat) in
  let I := demo.ir S (λ _ is_src, MkState unit is_src [] [] ∅ (EBool true)
                                    (MkStateValue (EUInt 0 8) (EBool true), ∅)
                                    tt) in
  let C := demo.config demo.never_full in
  let t := MkTransform (MkFunction [] demo.i8 []) (MkFunction [] demo.i8 []) in
  let x := demo.bv8 "x" in
  let refines := EEq (EVar x) (EUInt 3 8) in
  @vectorsynth.mk_fml S C t ∅ ∅ (EBool true) (EBool true) (EBool true)
     (EBool false) demo.w0
  = Some (EBool false, demo.w0)
  ∧ @vectorsynth.mk_fml S C t ∅ ∅ (EBool true) (EBool true) (EBool true)
      refines demo.w0
    = Some (EAnd (EBool true)
              (EForAll ∅ (EAnd (EBool true) (EImplies (EBool true) refines))),
            MkWorld 1 [] "").
Proof.
  intros S I C t x refines. split.
  - exact (proj2 (proj1 (proj1 (@mk_fml_wraps S I C (demo.dispatcher S)) t ∅ ∅ (EBool true)
                           (EBool true) (EBool true) (EBool false) demo.w0)
                    eq_refl)).
  - exact (proj2 (proj1 (@mk_fml_wraps S I C (demo.dispatcher S)) t ∅ ∅ (EBool true)
                    (EBool true) (EBool true) refines demo.w0) eq_refl).
Defined.

(** ** C7: the diagnostics of the result kinds *)

Lemma string_app_inj (p a b : string) : p +:+ a = p +:+ b → a = b.
Proof. induction p as [|c p IH]; simpl; [done|]. intros [= Heq]. auto. Qed.

(** C7.  Handed a result that is [Invalid], [Timeout], [SolverError reason]
    or [Skipped], the handler of either obligation appends to the collector
    exactly one entry: the fixed text of that kind ("Invalid expr",
    "Timeout", "SMT Error: " followed by the reason, "Skip"), flagged as
    having no witness; the handler of the main obligation does the same with
    "Unsat" for an [Unsat] result.  Nothing else changes (the constants map
    and the world stay as they were), and the texts determine the result:
    two results that are not [Sat] and have the same text are equal. *)
Theorem result_kinds_to_diagnostics `{IR}
    (src_state tgt_state : State Memory) (var : option Value)
    (check_each_var : bool) (errs : Errors) (result : gmap positive expr)
    (w : World) :
  (∀ r : Result Model,
     isSat r = false → isUnsat r = false →
     vectorsynth.domain_handler src_state tgt_state var check_each_var
       r (errs, result) w
     = Some ((errs ++ [(diagnostic_of r, false)], result), w))
  ∧ (∀ r : Result Model,
       isSat r = false →
       vectorsynth.main_handler src_state tgt_state r (errs, result) w
       = Some ((errs ++ [(diagnostic_of r, false)], result), w))
  ∧ (diagnostic_of (@Invalid Model) = "Invalid expr"
     ∧ diagnostic_of (@Timeout Model) = "Timeout"
     ∧ (∀ reason, diagnostic_of (@SolverError Model reason)
                  = "SMT Error: " +:+ reason)
     ∧ diagnostic_of (@Skipped Model) = "Skip"
     ∧ diagnostic_of (@Unsat Model) = "Unsat")
  ∧ (∀ r1 r2 : Result Model,
       isSat r1 = false → isSat r2 = false →
       diagnostic_of r1 = diagnostic_of r2 → r1 = r2).
Proof.
  split; [|split; [|split]].
  - intros [| |reason| | |m]; try done.
  - intros [| |reason| | |m]; try done.
  - done.
  - intros [| |reason1| | |m1] [| |reason2| | |m2]; try done.
    simpl. intros _ _ Heq. f_equal.
    by apply (string_app_inj "SMT Error: ").
Qed.

Lemma result_kinds_to_diagnostics_witness :
  let S := demo.solver (λ _ _, Unsat) in
  let st is_src := MkState unit is_src [] [] ∅ (EBool true)
                     (MkStateValue (EUInt 0 8) (EBool true), ∅) tt in
  let I := demo.ir S (λ _ is_src, st is_src) in
  @vectorsynth.domain_handler S I (st true) (st false) None false
     (SolverError "out of memory") ([], ∅) demo.w0
  = Some (([("SMT Error: out of memory", false)], ∅), demo.w0)
  ∧ @vectorsynth.main_handler S I (st true) (st false)
      Unsat ([], ∅) demo.w0
    = Some (([("Unsat", false)], ∅), demo.w0)
  ∧ @Timeout demo.Model0 = @Timeout demo.Model0.
Proof.
  intros S st I.
  pose proof (@result_kinds_to_diagnostics S I (st true) (st false) None
                false [] ∅ demo.w0) as (Hd & Hm & _ & Hinj).
  split; [|split].
  - exact (Hd (SolverError "out of memory") eq_refl eq_refl).
  - exact (Hm Unsat eq_refl).
  - exact (Hinj Timeout Timeout eq_refl eq_refl eq_refl).
Defined.

(** ** C9: the constructor's flag does not reach [synthesize] *)

(** C9.  [synthesize] gives the same outcome (collector, constants map and
    world, or abort) for every solver, dispatcher, transform, caller's map
    and world, whether the object was constructed with [check_each_var] true or false:
    it reads neither the [check_each_var] member nor [tgt_instrs], and hands
    its own local [false] to [error]. *)
Theorem synthesize_ignores_check_each_var `{IR} `{Config}
    {D : vectorsynth.Dispatcher} (t : Transform)
    (result : gmap positive expr) (w : World) :
  vectorsynth.synthesize (vectorsynth.ConstantSynth_new t true) result w
  = vectorsynth.synthesize (vectorsynth.ConstantSynth_new t false) result w
  ∧ (∀ (flag : bool) (tgt_instrs : gmap string positive),
       vectorsynth.synthesize
         (vectorsynth.MkConstantSynth t flag tgt_instrs) result w
       = vectorsynth.synthesize
           (vectorsynth.ConstantSynth_new t false) result w).
Proof. split; reflexivity. Qed.

(** ** C2: when the constants map is written *)

(** C2, as the code has it.  The handler of the main obligation writes the
    constants map only for a [Sat] result: for every other result it returns
    with the map exactly as the caller passed it (an empty map stays empty).
    For [Sat m], when the classifier checks of the renderer pass and the
    target's values are distinct objects, it returns with the collector
    untouched and a map that binds every target-side input whose name starts
    with [%_reservedc] to that input's value evaluated under [m], and agrees
    with the caller's map everywhere else; so the map is non-empty afterwards
    only if such an input exists.  Whenever the handler returns on [Sat m],
    the map is [recorded m]. *)
Theorem constants_recorded_on_sat `{IR}
    (src_state tgt_state : State Memory) (errs : Errors)
    (result : gmap positive expr) (w : World) :
  (∀ r : Result Model,
     isSat r = false →
     ∃ errs',
       vectorsynth.main_handler src_state tgt_state r (errs, result) w
       = Some ((errs', result), w))
  ∧ (∀ m : Model,
       forallb (λ x, classifier_ok m x.1.1) (getValues tgt_state) = true →
       NoDup (addr <$> (getValues tgt_state).*1.*1) →
       ∃ result' w',
         vectorsynth.main_handler src_state tgt_state (Sat m) (errs, result) w
         = Some ((errs, result'), w')
         ∧ (∀ var val used,
              (var, val, used) ∈ getValues tgt_state →
              is_hole var = true →
              result' !! addr var = Some (Model_eval m (value val.1) false))
         ∧ (∀ a,
              (∀ var val used,
                 (var, val, used) ∈ getValues tgt_state →
                 is_hole var = true → addr var ≠ a) →
              result' !! a = result !! a))
  ∧ (∀ (m : Model) out w',
       vectorsynth.main_handler src_state tgt_state (Sat m) (errs, result) w
       = Some (out, w') →
       out = (errs, recorded m (getValues tgt_state) result)).
Proof.
  split; [|split].
  - intros [| |reason| | |m] Hsat; try done; by eexists.
  - intros m Hok Hnd. unfold vectorsynth.main_handler. simpl.
    destruct (record_constants_total src_state m (getValues tgt_state) Hok
                result (";result" +:+ nl) w) as ([result' s] & w1 & Hrun).
    pose proof (record_constants_recorded _ _ _ _ _ _ _ _ Hrun) as Hrec.
    simpl in Hrec. subst result'.
    unfold bind. rewrite Hrun. simpl.
    eexists _, _. split; [reflexivity|]. split.
    + intros var val used Hin Hh. by eapply recorded_lookup_hole.
    + intros a Hne. by apply recorded_lookup_other.
  - intros m out w'. unfold vectorsynth.main_handler. simpl. unfold bind.
    destruct (vectorsynth.record_constants _ _ _ _ _ _)
      as [[[result' s] w1]|] eqn:Hrun; [|done].
    pose proof (record_constants_recorded _ _ _ _ _ _ _ _ Hrun) as Hrec.
    simpl in *. intros [= <- _]. by rewrite Hrec.
Qed.

Lemma constants_recorded_on_sat_witness :
  let S := demo.solver (λ _ _, Unsat) in
  let I := demo.ir S demo.plain_exec in
  (∃ errs',
     @vectorsynth.main_handler S I demo.plain_src demo.hole_tgt Timeout
       ([], ∅) demo.w0
     = Some ((errs', ∅), demo.w0))
  ∧ (∃ result' w',
       @vectorsynth.main_handler S I demo.plain_src demo.hole_tgt
         (Sat demo.hole_model) ([], ∅) demo.w0
       = Some (([], result'), w')
       ∧ result' !! 7%positive = Some (EUInt 1 8)
       ∧ result' !! 1%positive = None)
  ∧ (([], {[ 7%positive := EUInt 1 8 ]}) : vectorsynth.Output)
    = ([], @recorded S demo.hole_model (getValues demo.hole_tgt) ∅).
Proof.
  intros S I.
  pose proof (@constants_recorded_on_sat S I demo.plain_src demo.hole_tgt
                [] ∅ demo.w0) as (Hother & Hsat & Hret).
  split; [|split].
  - exact (Hother Timeout eq_refl).
  - destruct (Hsat demo.hole_model eq_refl) as (result' & w' & Hrun & Hh & Ho).
    { apply (bool_decide_unpack _). vm_compute. reflexivity. }
    exists result', w'. split; [exact Hrun|]. split.
    + apply (Hh demo.hole (demo.input_value "%_reservedc1", ∅) true).
      * vm_compute. by right; left.
      * reflexivity.
    + rewrite Ho; [done|].
      intros var val used Hin Hhole.
      vm_compute in Hin.
      apply elem_of_cons in Hin as [Heq|Hin].
      { injection Heq as -> _ _. done. }
      apply elem_of_cons in Hin as [Heq|Hin].
      { injection Heq as -> _ _. done. }
      by apply elem_of_nil in Hin.
  - apply (Hret demo.hole_model _
             (MkWorld 0 [] (";result" +:+ nl +:+ "%_reservedc1 = <const>"
                            +:+ nl))).
    reflexivity.
Defined.

(** Against C2's "if": a [Sat] main result does not by itself populate the
    map.  With a target that has no reserved-prefix input, the handler
    returns on [Sat] with the map still empty. *)
Lemma sat_without_holes_counterexample :
  let S := demo.solver (λ _ _, Unsat) in
  let I := demo.ir S demo.plain_exec in
  let r : Result Model := Sat demo.hole_model in
  isSat r = true
  ∧ @vectorsynth.main_handler S I demo.plain_src demo.plain_tgt r
      ([], ∅) demo.w0
    = Some (([], ∅), MkWorld 0 [] (";result" +:+ nl))
  ∧ ¬ ((∅ : gmap positive expr) ≠ ∅ ↔ isSat r = true).
Proof.
  intros S I r. split; [done|]. split; [reflexivity|].
  intros [_ Hpop]. by apply Hpop.
Qed.

(** ** C3: the domain-loss query on [Unsat] *)





(** ** C8: rendering an undef input *)

(** The classifier test of lines 121-127 is reached, and decides, once the
    validity and poison tests have passed. *)
Lemma print_single_varval_undef_input `{IR}
    (st : State Memory) (m : Model) (tyvar : var) (var : Value)
    (type : Ty) (val : StateValue) (w : World) :
  as_Input var = Some tyvar →
  smt.isUInt (Model_eval m (EVar tyvar) true) = Some 1%N →
  StateValue_isValid val = true →
  smt.isConst (Model_eval m (non_poison val) false) = true →
  smt.isFalse (Model_eval m (non_poison val) false) = false →
  print_single_varval st m var type val w = Some ("undef", w).
Proof.
  intros Hin Hty Hvalid Hconst Hnf. unfold print_single_varval.
  rewrite Hvalid, Hconst, Hnf, Hin, Hty. reflexivity.
Qed.

(** The demo evaluator computes. *)
Lemma eval0_folds (answers : nat → expr → Result demo.Model0)
    (m : demo.Model0) :
  @eval_folds (demo.solver answers) m.
Proof.
  assert (HU : ∀ (m : demo.Model0) n bits,
    foldl (λ e '(x, v), smt.subst x v e) (EUInt n bits) m = EUInt n bits).
  { induction m0 as [|[x v] m0 IH]; intros n bits; [done|]. apply IH. }
  assert (HN : ∀ (m : demo.Model0) a,
    foldl (λ e '(x, v), smt.subst x v e) (ENot a) m
    = ENot (foldl (λ e '(x, v), smt.subst x v e) a m)).
  { induction m0 as [|[x v] m0 IH]; intros a; [done|]. apply IH. }
  assert (HE : ∀ (m : demo.Model0) a b,
    foldl (λ e '(x, v), smt.subst x v e) (EEq a b) m
    = EEq (foldl (λ e '(x, v), smt.subst x v e) a m)
          (foldl (λ e '(x, v), smt.subst x v e) b m)).
  { induction m0 as [|[x v] m0 IH]; intros a b; [done|]. apply IH. }
  split; [|split]; simpl; unfold demo.eval0.
  - intros n bits. by rewrite HU.
  - intros a b n n' bits Ha Hb. rewrite HE. simpl. rewrite Ha, Hb.
    by rewrite decide_True.
  - intros a b Ha. rewrite HN. simpl. by rewrite Ha.
Qed.

(** C8.  An [Input] is rendered with its own state value, whose non-poison
    flag says that the classifier is not 2.  When the witness model fixes
    the classifier of the input to 1 (undef), [print_single_varval] prints
    "undef" for it and sends no probe to the solver, whatever term the
    value is and whatever the model makes of it.  The value's term is a
    valid term, and model evaluation is assumed to compute numerals,
    equations between numerals and negations. *)
Theorem undef_input_rendered `{IR}
    (st : State Memory) (m : Model) (tyvar : var) (var : Value)
    (type : Ty) (val : StateValue) (w : World) :
  eval_folds m →
  as_Input var = Some tyvar →
  non_poison val = Input_non_poison tyvar →
  smt.isValid (value val) = true →
  Model_eval m (EVar tyvar) false = nums 1 →
  smt.isUInt (Model_eval m (EVar tyvar) true) = Some 1%N →
  print_single_varval st m var type val w = Some ("undef", w).
Proof.
  intros (HU & HE & HN) Hin Hflag Hvalid Hpartial Hty.
  assert (Hnp : Model_eval m (non_poison val) false = EBool true).
  { rewrite Hflag. unfold Input_non_poison, smt.mkNe.
    rewrite (HN _ false); [done|].
    rewrite (HE _ _ 1%N 2%N 2%N); [done|done|apply HU]. }
  apply (print_single_varval_undef_input st m tyvar); try done.
  - unfold StateValue_isValid. by rewrite Hvalid, Hflag.
  - by rewrite Hnp.
  - by rewrite Hnp.
Qed.

Lemma undef_input_rendered_witness :
  let S := demo.solver (λ _ _, Unsat) in
  let I := demo.ir S demo.plain_exec in
  @print_single_varval S I demo.plain_src demo.undef_model demo.x_in demo.i8
    (demo.input_value "%x") demo.w0
  = Some ("undef", demo.w0).
Proof.
  intros S I.
  exact (@undef_input_rendered S I demo.plain_src demo.undef_model
           (demo.bv2 "ty_%x") demo.x_in demo.i8 (demo.input_value "%x")
           demo.w0 (eval0_folds _ demo.undef_model)
           eq_refl eq_refl eq_refl eq_refl eq_refl).
Defined.

(** ** C4: the size of the instances map *)

(** C4, as the code has it.  The threshold of 128 is tested after an input
    has been expanded, not while it is.  Expanding one input at most triples
    the map; an input is expanded only while the map holds fewer than 128
    entries, so the loop always returns, with the last map of its history,
    and every map of that history (every value [instances] takes at line 84,
    and the one the loop is entered with) holds at most 3 * 127 = 381
    entries.  As soon as the map
    holds 128 entries or more after an input, the remaining inputs are
    skipped without asking the governor.  [preprocess] returns a term for
    every input, and past the two fallbacks that term is the disjunction
    [mk_insts] over at most 381 surviving entries. *)
Theorem instances_bounded `{Solver} `{Config} :
  (∀ x instances,
     length (instantiate_var x instances) ≤ 3 * length instances)
  ∧ (∀ inputs instances w,
       length instances < 128 →
       ∃ h w',
         instances_history inputs instances w = Some (h, w')
         ∧ instantiate_inputs inputs instances w
           = Some (default instances (last h), w')
         ∧ Forall (λ m : emap, length m ≤ 381) h)
  ∧ (∀ i x inputs instances w,
       as_Input i = Some x →
       128 ≤ length (instantiate_var x instances) →
       instantiate_inputs (i :: inputs) instances w
       = Some (instantiate_var x instances, w))
  ∧ (∀ t qvars0 undef_qvars e w,
       ∃ r w', preprocess t qvars0 undef_qvars e w = Some (r, w'))
  ∧ (∀ t qvars0 undef_qvars e w,
       undef_qvars ≠ ∅ →
       half_memory_answers (mem_calls w) = false →
       half_memory_answers (S (mem_calls w)) = false →
       ∃ instances w',
         length instances ≤ 381
         ∧ preprocess t qvars0 undef_qvars e w
           = Some (mk_insts (elim_bool_qvars qvars0 e).1 instances, w')).
Proof.
  split; [|split; [|split; [|split]]].
  - apply instantiate_var_length.
  - intros inputs instances w Hlt.
    destruct (instances_history_bounded inputs instances w Hlt)
      as (h & w' & Hh & Hrun & _ & Hall).
    by exists h, w'.
  - intros i x inputs instances w Hin Hbig. simpl. rewrite Hin.
    by rewrite bool_decide_eq_true_2.
  - intros t qvars0 undef_qvars e w.
    unfold preprocess, bind, hit_half_memory_limit. simpl.
    destruct (half_memory_answers (mem_calls w)); [by eexists _, _|].
    destruct (elim_bool_qvars qvars0 e) as [qvars e'].
    destruct (bool_decide (undef_qvars = ∅)); [by eexists _, _|].
    simpl. destruct (half_memory_answers (S (mem_calls w)));
      [by eexists _, _|].
    match goal with
    | |- context [instantiate_inputs ?ins ?init ?w1] =>
        destruct (instantiate_inputs_bounded ins init w1)
          as (instances & w' & -> & _); [simpl; lia|]
    end.
    by eexists _, _.
  - intros t qvars0 undef_qvars e w Hne Hm0 Hm1.
    unfold preprocess, bind, hit_half_memory_limit. simpl.
    rewrite Hm0. destruct (elim_bool_qvars qvars0 e) as [qvars e'].
    rewrite bool_decide_eq_false_2 by done. simpl. rewrite Hm1.
    match goal with
    | |- context [instantiate_inputs ?ins ?init ?w1] =>
        destruct (instantiate_inputs_bounded ins init w1)
          as (instances & w' & -> & Hlen); [simpl; lia|]
    end.
    by eexists _, _.
Qed.

Lemma instances_bounded_witness :
  let S := demo.solver (λ _ _, Unsat) in
  let C := demo.config demo.never_full in
  let init : emap := [(demo.five_term, EBool true)] in
  (∃ h w',
     @instances_history S C demo.five_inputs init demo.w0 = Some (h, w')
     ∧ @instantiate_inputs S C demo.five_inputs init demo.w0
       = Some (default init (last h), w')
     ∧ Forall (λ m : emap, length m ≤ 381) h)
  ∧ (∃ instances w',
       length instances ≤ 381
       ∧ @preprocess S C demo.five_t ∅ {[ demo.bv8 "undef!0" ]}
           demo.five_term demo.w0
         = Some (mk_insts (@elim_bool_qvars S ∅ demo.five_term).1 instances,
                 w')).
Proof.
  intros S C init.
  pose proof (@instances_bounded S C) as (_ & Hloop & _ & _ & Hpre).
  split.
  - apply Hloop. simpl. lia.
  - apply Hpre; [|reflexivity|reflexivity].
    vm_compute. discriminate.
Defined.

(** Against C4 as stated.  Five inputs whose classifiers all occur in the
    term: the map grows
    1, 3, 9, 27, 81 (each below 128, so the next input is expanded) and then
    243, which is what the loop returns.  The 243 terms are pairwise
    inequivalent, so no meaning-preserving simplifier could merge them. *)
Lemma instances_exceed_128_counterexample :
  let S := demo.solver (λ _ _, Unsat) in
  let C := demo.config demo.never_full in
  let init : emap := [(demo.five_term, EBool true)] in
  match @instances_history S C demo.five_inputs init demo.w0 with
  | Some (h, _) => Some (List.map (length (A:=expr * expr)) h)
  | None => None
  end = Some [1; 3; 9; 27; 81; 243]
  ∧ match @instantiate_inputs S C demo.five_inputs init demo.w0 with
    | Some (instances, _) => Some (length instances)
    | None => None
    end = Some 243
  ∧ ¬ (243 ≤ 128).
Proof.
  intros S C init. split; [|split].
  - vm_compute. reflexivity.
  - vm_compute. reflexivity.
  - lia.
Qed.

(** * Further properties of [preprocess] *)

(** ** Meaning of the instantiated formula *)

Section InstantiateMeaning.
Context `{Solver} `{Config}.

(** Substituting a literal is the same as updating the environment with the
    literal's value. *)
Lemma interp_subst_lit x lit v e :
  (∀ ρ, interp ρ lit = den_of_val v) →
  ∀ ρ ρ2 : env,
    (∀ y, ρ2 y = if decide (y = x) then v else ρ y) →
    den_eq (interp ρ (smt.subst x lit e)) (interp ρ2 e).
Proof.
  intros Hlit.
  induction e as [|y|b|n bits|a IHa|a IHa b IHb|a IHa b IHb
                 |a IHa b IHb|a IHa b IHb|xs body IH];
    intros ρ ρ2 Hρ; simpl.
  - tauto.
  - destruct (decide (y = x)) as [->|Hne]; simpl.
    + rewrite Hlit, Hρ, decide_True by done. destruct v; apply den_eq_refl.
    + rewrite Hρ, decide_False by done. apply den_eq_refl.
  - tauto.
  - reflexivity.
  - pose proof (den_eq_truth _ _ (IHa ρ ρ2 Hρ)). tauto.
  - pose proof (den_eq_truth _ _ (IHa ρ ρ2 Hρ)).
    pose proof (den_eq_truth _ _ (IHb ρ ρ2 Hρ)). tauto.
  - pose proof (den_eq_truth _ _ (IHa ρ ρ2 Hρ)).
    pose proof (den_eq_truth _ _ (IHb ρ ρ2 Hρ)). tauto.
  - pose proof (den_eq_truth _ _ (IHa ρ ρ2 Hρ)).
    pose proof (den_eq_truth _ _ (IHb ρ ρ2 Hρ)). tauto.
  - apply den_eq_cong; auto.
  - destruct (decide (x ∈ xs)) as [Hin|Hnin]; simpl.
    + split; intros Hall ρ' Hout Hsort; apply Hall; try done.
      * intros y Hy. rewrite Hout by done. rewrite Hρ.
        rewrite decide_False; [done|]. by intros ->.
      * intros y Hy. rewrite Hout by done. rewrite Hρ.
        rewrite decide_False; [done|]. by intros ->.
    + split; intros Hall ρ' Hout Hsort.
      * set (ρ1 := λ y, if decide (y ∈ xs) then ρ' y else ρ y).
        assert (Hrel : ∀ y, ρ' y = if decide (y = x) then v else ρ1 y).
        { intros y. unfold ρ1.
          destruct (decide (y = x)) as [->|Hne].
          - rewrite Hout, Hρ by done. by rewrite decide_True.
          - destruct (decide (y ∈ xs)); [done|].
            rewrite Hout, Hρ by done. by rewrite decide_False. }
        apply (den_eq_truth _ _ (IH ρ1 ρ' Hrel)).
        apply Hall; unfold ρ1.
        -- intros y Hy. by rewrite decide_False.
        -- intros y Hy. rewrite decide_True by done. by apply Hsort.
      * set (ρ3 := λ y, if decide (y = x) then v else ρ' y).
        assert (Hrel : ∀ y, ρ3 y = if decide (y = x) then v else ρ' y)
          by done.
        apply (den_eq_truth _ _ (IH ρ' ρ3 Hrel)).
        apply Hall; unfold ρ3.
        -- intros y Hy. rewrite Hρ. destruct (decide (y = x)); [done|].
           by apply Hout.
        -- intros y Hy. rewrite decide_False; [by apply Hsort|].
           by intros ->.
Qed.

Lemma elem_of_emap_assign k v m p :
  p ∈ emap_assign k v m → p ∈ m ∨ p = (k, v).
Proof.
  induction m as [|[k' v'] m IH]; simpl.
  - intros Hp%list_elem_of_singleton. by right.
  - destruct (decide (k' = k)) as [->|Hne].
    + intros [Hp|Hin]%elem_of_cons; [by right|]. left. by right.
    + intros [Hp|Hin]%elem_of_cons; [left; subst p; by left|].
      destruct (IH Hin) as [?|?]; [left; by right|by right].
Qed.

Lemma elem_of_emap_try_emplace k v m p :
  p ∈ emap_try_emplace k v m → p ∈ m ∨ p = (k, v).
Proof.
  unfold emap_try_emplace. destruct (emap_mem k m); [by left|].
  intros [?|Hp%list_elem_of_singleton]%elem_of_app; [by left|by right].
Qed.

(** Where an entry of the map after one [(e, v)] comes from. *)
Lemma instantiate_entry_shape x e v rest :
  ∀ instances2 p,
    p ∈ instantiate_entry x e v rest instances2 →
    p ∈ instances2
    ∨ (p = (e, v) ∧ ∃ i, i ∈ rest ∧ smt.subst x (nums i) e = e)
    ∨ ∃ i, i ∈ rest
           ∧ ¬ (disable_undef_input = true ∧ i = 1%N)
           ∧ ¬ (disable_poison_input = true ∧ i = 2%N)
           ∧ smt.isFalse (simplify (smt.subst x (nums i) e)) = false
           ∧ p = (simplify (smt.subst x (nums i) e),
                  smt.mkAnd v (smt.mkEq (EVar x) (nums i))).
Proof.
  induction rest as [|i rest IH]; intros instances2 p; simpl; [by left|].
  assert (Hlift :
    (p ∈ instances2
     ∨ (p = (e, v) ∧ ∃ j, j ∈ rest ∧ smt.subst x (nums j) e = e)
     ∨ ∃ j, j ∈ rest
            ∧ ¬ (disable_undef_input = true ∧ j = 1%N)
            ∧ ¬ (disable_poison_input = true ∧ j = 2%N)
            ∧ smt.isFalse (simplify (smt.subst x (nums j) e)) = false
            ∧ p = (simplify (smt.subst x (nums j) e),
                   smt.mkAnd v (smt.mkEq (EVar x) (nums j)))) →
    p ∈ instances2
    ∨ (p = (e, v) ∧ ∃ j, j ∈ i :: rest ∧ smt.subst x (nums j) e = e)
    ∨ ∃ j, j ∈ i :: rest
           ∧ ¬ (disable_undef_input = true ∧ j = 1%N)
           ∧ ¬ (disable_poison_input = true ∧ j = 2%N)
           ∧ smt.isFalse (simplify (smt.subst x (nums j) e)) = false
           ∧ p = (simplify (smt.subst x (nums j) e),
                  smt.mkAnd v (smt.mkEq (EVar x) (nums j)))).
  { intros [?|[[? (j & Hj & Hs)]|(j & Hj & Hrest)]]; [by left| |].
    - right; left. split; [done|]. exists j. split; [by right|done].
    - right; right. exists j. split; [by right|done]. }
  destruct (disable_undef_input && bool_decide (i = 1%N)) eqn:Hu.
  { intros Hp. by apply Hlift, IH. }
  destruct (disable_poison_input && bool_decide (i = 2%N)) eqn:Hpo.
  { intros Hp. by apply Hlift, IH. }
  destruct (smt.eq (smt.subst x (nums i) e) e) eqn:Heq.
  { apply bool_decide_eq_true in Heq. rewrite Heq.
    intros [?|?]%elem_of_emap_assign; [by left|].
    right; left. split; [done|]. exists i. split; [by left|done]. }
  destruct (smt.isFalse (simplify (smt.subst x (nums i) e))) eqn:Hf.
  { intros Hp. by apply Hlift, IH. }
  intros Hp. apply IH in Hp as [Hp|Hp]; [|by apply Hlift; right].
  apply elem_of_emap_try_emplace in Hp as [Hp| ->]; [by left|].
  right; right. exists i. split; [by left|].
  split; [|split; [|done]].
  - intros [Hd ->]. by rewrite Hd in Hu.
  - intros [Hd ->]. by rewrite Hd in Hpo.
Qed.

Lemma instantiate_var_shape_acc x instances :
  ∀ acc p,
    p ∈ foldl (λ instances2 '(e, v),
                 instantiate_entry x e v [0%N; 1%N; 2%N] instances2)
              acc instances →
    p ∈ acc
    ∨ ∃ e v, (e, v) ∈ instances
             ∧ ((p = (e, v)
                 ∧ ∃ i, i ∈ [0; 1; 2]%N ∧ smt.subst x (nums i) e = e)
                ∨ ∃ i, i ∈ enabled_values
                       ∧ smt.isFalse (simplify (smt.subst x (nums i) e))
                         = false
                       ∧ p = (simplify (smt.subst x (nums i) e),
                              smt.mkAnd v (smt.mkEq (EVar x) (nums i)))).
Proof.
  induction instances as [|[e v] instances IH]; intros acc p; cbn [foldl];
    [by left|].
  intros Hp. apply IH in Hp as [Hp|(e' & v' & Hin & Hp)].
  - apply instantiate_entry_shape in Hp
      as [Hp|[[-> Hs]|(i & Hi & Hu & Hpo & Hf & ->)]].
    + by left.
    + right. exists e, v. split; [by left|by left].
    + right. exists e, v. split; [by left|]. right. exists i.
      split; [|done]. unfold enabled_values.
      apply list_elem_of_filter. done.
  - right. exists e', v'. split; [by right|done].
Qed.

(** The disjunction of lines 87-90 holds exactly when some surviving entry
    does. *)
Lemma mk_insts_holds_acc qvars ρ instances :
  ∀ acc,
    holds ρ (foldl (λ insts '(e, v),
                      smt.mkOr insts (smt.mkAnd (smt.mkForAll qvars e) v))
                   acc instances)
    ↔ holds ρ acc
      ∨ ∃ e v, (e, v) ∈ instances
               ∧ holds ρ (smt.mkForAll qvars e) ∧ holds ρ v.
Proof.
  induction instances as [|[e v] instances IH]; intros acc; cbn [foldl].
  - split; [by left|]. intros [?|(e & v & Hin & _)]; [done|].
    by apply elem_of_nil in Hin.
  - rewrite IH. split.
    + intros [[Hacc|[Hall Hv]]|(e' & v' & Hin & Hev)].
      * by left.
      * right. exists e, v. split; [by left|done].
      * right. exists e', v'. split; [by right|done].
    + intros [Hacc|(e' & v' & Hin & Hev)].
      * left. by left.
      * apply elem_of_cons in Hin as [Heq|Hin].
        -- injection Heq as -> ->. left. right. done.
        -- right. by exists e', v'.
Qed.

(** One round of instantiation only strengthens the formula, when the
    classifier is not one of the quantified variables. *)
Lemma instantiate_var_implies qvars x instances ρ :
  simplify_sound simplify → x ∉ qvars →
  holds ρ (mk_insts qvars (instantiate_var x instances)) →
  holds ρ (mk_insts qvars instances).
Proof.
  intros Hsound Hx. unfold mk_insts. rewrite !mk_insts_holds_acc.
  intros [Hf|(k & g & Hin & Hk & Hg)]; [by left|]. right.
  apply instantiate_var_shape_acc in Hin
    as [Hin|(e & v & Hin & [[Heq _]|(i & _ & _ & Heq)])].
  - by apply elem_of_nil in Hin.
  - injection Heq as -> ->. by exists e, v.
  - injection Heq as -> ->. exists e, v. split; [done|].
    destruct Hg as [Hv Hxi]. split; [|done].
    intros ρ' Hout Hsort.
    specialize (Hk ρ' Hout Hsort). apply (proj1 (Hsound _ _)) in Hk.
    refine (proj1 (den_eq_truth _ _
              (interp_subst_lit x (nums i) (VBV (i mod 2 ^ 2)%N) e _ ρ' ρ' _))
              Hk); [done|].
    intros y. destruct (decide (y = x)) as [->|]; [|done].
    rewrite Hout by done. simpl in Hxi.
    destruct (ρ x) as [b|n]; [done|]. simpl in Hxi. by rewrite Hxi.
Qed.

Lemma instantiate_inputs_implies qvars ρ inputs :
  simplify_sound simplify →
  Forall (λ x, x ∉ qvars) (classifiers inputs) →
  ∀ instances w instances' w',
    instantiate_inputs inputs instances w = Some (instances', w') →
    holds ρ (mk_insts qvars instances') →
    holds ρ (mk_insts qvars instances).
Proof.
  intros Hsound. induction inputs as [|i inputs IH];
    intros Hcls instances w instances' w'; simpl.
  - by intros [= <- _].
  - unfold classifiers in Hcls. simpl in Hcls.
    destruct (as_Input i) as [x|]; simpl in Hcls; [|by apply IH].
    apply Forall_cons in Hcls as [Hx Hcls].
    destruct (bool_decide _).
    { intros [= <- _]. by apply instantiate_var_implies. }
    unfold bind, hit_half_memory_limit.
    destruct (half_memory_answers _).
    { intros [= <- _]. by apply instantiate_var_implies. }
    intros Hrun Hholds. apply (instantiate_var_implies qvars x); [done..|].
    by eapply IH.
Qed.

End InstantiateMeaning.

(** X1.  Whatever [preprocess] returns implies the plain universal closure
    of its input, in every environment: the fallbacks return an equivalent
    closure, and each round of classifier instantiation keeps, per entry, the
    instance together with the equation that fixes the classifier, so the
    final disjunction can only be harder to satisfy.  The simplifier is
    assumed to keep meanings and the classifiers of the source's inputs are
    assumed not to be quantified. *)
Theorem preprocess_implies_closure `{Solver} `{Config}
    (t : Transform) (qvars0 undef_qvars : gset var) (e : expr) (w : World) :
  simplify_sound simplify →
  Forall (λ x, x ∉ qvars0) (classifiers (getInputs (src t))) →
  ∃ r w',
    preprocess t qvars0 undef_qvars e w = Some (r, w')
    ∧ ∀ ρ, holds ρ r → holds ρ (smt.mkForAll qvars0 e).
Proof.
  intros Hsound Hcls.
  destruct (elim_bool_loop_equiv Hsound (elements qvars0) qvars0 e)
    as [Heq Hmem].
  { apply NoDup_elements. }
  { intros x. by rewrite elem_of_elements. }
  unfold preprocess, bind, hit_half_memory_limit. simpl.
  destruct (half_memory_answers (mem_calls w)); [by eexists _, _|].
  fold (elim_bool_qvars qvars0 e) in Heq, Hmem.
  destruct (elim_bool_qvars qvars0 e) as [qvars e'] eqn:Hr.
  simpl in Heq, Hmem.
  destruct (bool_decide (undef_qvars = ∅)).
  { eexists _, _. split; [reflexivity|]. intros ρ. apply Heq. }
  simpl. destruct (half_memory_answers (S (mem_calls w))).
  { eexists _, _. split; [reflexivity|]. intros ρ. apply Heq. }
  match goal with
  | |- context [instantiate_inputs ?ins ?init ?w1] =>
      destruct (instantiate_inputs_bounded ins init w1)
        as (instances & w' & Hrun & _); [simpl; lia|]
  end.
  rewrite Hrun. eexists _, _. split; [reflexivity|].
  intros ρ Hholds. apply Heq.
  assert (Hq : Forall (λ x, x ∉ qvars) (classifiers (getInputs (src t)))).
  { eapply Forall_impl; [exact Hcls|]. intros x Hx Hin. apply Hx.
    by apply Hmem in Hin as [? _]. }
  pose proof (instantiate_inputs_implies qvars ρ _ Hsound Hq _ _ _ _
                Hrun Hholds) as Hone.
  unfold mk_insts in Hone. apply mk_insts_holds_acc in Hone
    as [Hf|(e1 & v1 & Hin & Hall & _)]; [done|].
  apply list_elem_of_singleton in Hin. by injection Hin as -> ->.
Qed.

Lemma preprocess_implies_closure_witness :
  let S := demo.solver (λ _ _, Unsat) in
  let C := demo.config demo.never_full in
  let qvars0 : gset var := {[ demo.bv2 "k_%a"; demo.boolv "p" ]} in
  ∃ r w',
    @preprocess S C demo.five_t qvars0 {[ demo.bv8 "undef!0" ]}
      demo.five_term demo.w0 = Some (r, w')
    ∧ ∀ ρ, holds ρ r → holds ρ (smt.mkForAll qvars0 demo.five_term).
Proof.
  intros S C qvars0.
  apply (@preprocess_implies_closure S C demo.five_t qvars0
           {[ demo.bv8 "undef!0" ]} demo.five_term demo.w0
           simplify0_sound).
  apply (bool_decide_unpack _). vm_compute. reflexivity.
Defined.

(** X2.  After one input has been processed, every entry of the instances
    map is an entry that was there before (its term does not mention the
    classifier), or the simplified instance of such an entry's term at a
    classifier value that is not disabled, which is not the literal false,
    guarded by the old guard and the equation classifier = value. *)
Theorem instantiate_var_entries `{Solver} `{Config}
    (x : var) (instances : emap) (p : expr * expr) :
  p ∈ instantiate_var x instances →
  ∃ e v,
    (e, v) ∈ instances
    ∧ ((p = (e, v) ∧ ∃ i, i ∈ [0; 1; 2]%N ∧ smt.subst x (nums i) e = e)
       ∨ ∃ i, i ∈ enabled_values
              ∧ smt.isFalse (simplify (smt.subst x (nums i) e)) = false
              ∧ p = (simplify (smt.subst x (nums i) e),
                     smt.mkAnd v (smt.mkEq (EVar x) (nums i)))).
Proof.
  intros Hp. apply instantiate_var_shape_acc in Hp as [Hp|Hp]; [|done].
  by apply elem_of_nil in Hp.
Qed.

Lemma instantiate_var_entries_witness :
  let S := demo.solver (λ _ _, Unsat) in
  let C := demo.config demo.never_full in
  let x := demo.bv2 "ty_%a" in
  let e := EEq (EVar x) (EVar (demo.bv2 "k")) in
  let p := (EEq (EUInt 1 2) (EVar (demo.bv2 "k")),
            EAnd (EBool true) (EEq (EVar x) (EUInt 1 2))) in
  ∃ e0 v0,
    (e0, v0) ∈ [(e, EBool true)]
    ∧ ((p = (e0, v0)
        ∧ ∃ i, i ∈ [0; 1; 2]%N ∧ smt.subst x (nums i) e0 = e0)
       ∨ ∃ i, i ∈ @enabled_values C
              ∧ smt.isFalse (@simplify S (smt.subst x (nums i) e0)) = false
              ∧ p = (@simplify S (smt.subst x (nums i) e0),
                     smt.mkAnd v0 (smt.mkEq (EVar x) (nums i)))).
Proof.
  intros S C x e p.
  apply (@instantiate_var_entries S C x [(e, EBool true)] p).
  vm_compute. right; left.
Defined.

(** ** Keys, growth and effects of the instantiation loop *)

Section InstantiateKeys.
Context `{Solver} `{Config}.

Lemma emap_assign_keys k v m k' :
  k' ∈ (emap_assign k v m).*1 ↔ k' ∈ m.*1 ∨ k' = k.
Proof.
  induction m as [|[k0 v0] m IH]; simpl.
  - rewrite list_elem_of_singleton, elem_of_nil. tauto.
  - destruct (decide (k0 = k)) as [->|Hne]; simpl.
    + rewrite elem_of_cons. tauto.
    + rewrite !elem_of_cons, IH. tauto.
Qed.

Lemma emap_assign_NoDup k v m :
  NoDup m.*1 → NoDup (emap_assign k v m).*1.
Proof.
  induction m as [|[k0 v0] m IH]; simpl.
  - intros _. apply NoDup_singleton.
  - intros [Hk0 Hm]%NoDup_cons.
    destruct (decide (k0 = k)) as [->|Hne]; simpl.
    + by apply NoDup_cons.
    + apply NoDup_cons. split; [|by apply IH].
      rewrite emap_assign_keys. intros [?|?]; [done|]. by apply Hne.
Qed.

Lemma emap_try_emplace_NoDup k v m :
  NoDup m.*1 → NoDup (emap_try_emplace k v m).*1.
Proof.
  intros Hm. unfold emap_try_emplace, emap_mem.
  destruct (bool_decide (k ∈ m.*1)) eqn:Hk; [done|].
  apply bool_decide_eq_false in Hk.
  rewrite fmap_app. simpl. apply NoDup_app. split; [done|].
  split; [|apply NoDup_singleton].
  intros k' Hin ->%list_elem_of_singleton. done.
Qed.

Lemma instantiate_entry_NoDup x e v rest :
  ∀ instances2,
    NoDup instances2.*1 →
    NoDup (instantiate_entry x e v rest instances2).*1.
Proof.
  induction rest as [|i rest IH]; intros instances2 Hnd; simpl; [done|].
  destruct (disable_undef_input && _); [by apply IH|].
  destruct (disable_poison_input && _); [by apply IH|].
  destruct (smt.eq _ e); [by apply emap_assign_NoDup|].
  destruct (smt.isFalse _); [by apply IH|].
  by apply IH, emap_try_emplace_NoDup.
Qed.

Lemma instantiate_var_NoDup x instances :
  NoDup (instantiate_var x instances).*1.
Proof.
  unfold instantiate_var.
  assert (Hgen : ∀ acc,
    NoDup acc.*1 →
    NoDup (foldl (λ instances2 '(e, v),
                    instantiate_entry x e v [0%N; 1%N; 2%N] instances2)
                 acc instances).*1).
  { induction instances as [|[e v] instances IH]; intros acc Hacc;
      cbn [foldl]; [done|].
    by apply IH, instantiate_entry_NoDup. }
  apply Hgen. simpl. apply NoDup_nil_2.
Qed.

(** A term that does not mention [x] is not changed by substituting [x]. *)
Lemma subst_fresh x to e : x ∉ smt.vars e → smt.subst x to e = e.
Proof.
  induction e as [|y|b|n bits|a IHa|a IHa b IHb|a IHa b IHb
                 |a IHa b IHb|a IHa b IHb|xs body IH]; simpl; intros Hx;
    try done.
  - rewrite decide_False; [done|]. intros ->. apply Hx.
    by apply elem_of_singleton.
  - by rewrite IHa.
  - rewrite IHa, IHb; [done|..]; intros ?; apply Hx, elem_of_union; auto.
  - rewrite IHa, IHb; [done|..]; intros ?; apply Hx, elem_of_union; auto.
  - rewrite IHa, IHb; [done|..]; intros ?; apply Hx, elem_of_union; auto.
  - rewrite IHa, IHb; [done|..]; intros ?; apply Hx, elem_of_union; auto.
  - destruct (decide (x ∈ xs)); [done|]. rewrite IH; [done|].
    intros ?. apply Hx, elem_of_difference. done.
Qed.

Lemma emap_assign_fresh k v m :
  k ∉ m.*1 → emap_assign k v m = m ++ [(k, v)].
Proof.
  induction m as [|[k0 v0] m IH]; simpl; [done|].
  intros Hk. destruct (decide (k0 = k)) as [->|Hne].
  - exfalso. apply Hk. by left.
  - rewrite IH; [done|]. intros ?. apply Hk. by right.
Qed.

Lemma instantiate_var_absent_acc x instances :
  ∀ acc,
    NoDup (acc ++ instances).*1 →
    (∀ e v, (e, v) ∈ instances → x ∉ smt.vars e) →
    foldl (λ instances2 '(e, v),
             instantiate_entry x e v [0%N; 1%N; 2%N] instances2)
          acc instances
    = acc ++ instances.
Proof.
  induction instances as [|[e v] instances IH]; intros acc Hnd Habs;
    cbn [foldl].
  - by rewrite app_nil_r.
  - assert (Hstep : instantiate_entry x e v [0%N; 1%N; 2%N] acc
                    = acc ++ [(e, v)]).
    { cbn [instantiate_entry].
      replace (disable_undef_input && bool_decide (0%N = 1%N)) with false
        by (by destruct disable_undef_input).
      replace (disable_poison_input && bool_decide (0%N = 2%N)) with false
        by (by destruct disable_poison_input).
      rewrite subst_fresh by (apply (Habs e v); by left).
      unfold smt.eq. rewrite bool_decide_eq_true_2 by done.
      apply emap_assign_fresh.
      rewrite fmap_app in Hnd. apply NoDup_app in Hnd as (_ & Hdisj & _).
      intros Hin. apply (Hdisj e Hin). simpl. by left. }
    rewrite Hstep, IH.
    + by rewrite <- app_assoc.
    + by rewrite <- app_assoc.
    + intros e' v' Hin. apply (Habs e' v'). by right.
Qed.

Lemma instantiate_entry_length_enabled x e v rest :
  ∀ instances2,
    length (instantiate_entry x e v rest instances2)
    ≤ length instances2
      + length (filter (λ i : N,
                          ¬ (disable_undef_input = true ∧ i = 1%N)
                          ∧ ¬ (disable_poison_input = true ∧ i = 2%N))
                       rest).
Proof.
  induction rest as [|i rest IH]; intros instances2; simpl; [lia|].
  destruct (disable_undef_input && bool_decide (i = 1%N)) eqn:Hu.
  { apply andb_true_iff in Hu as [Hd Hi%bool_decide_eq_true].
    rewrite filter_cons_False by (intros [Hn _]; by apply Hn).
    apply IH. }
  destruct (disable_poison_input && bool_decide (i = 2%N)) eqn:Hpo.
  { apply andb_true_iff in Hpo as [Hd Hi%bool_decide_eq_true].
    rewrite filter_cons_False by (intros [_ Hn]; by apply Hn).
    apply IH. }
  rewrite filter_cons_True.
  2:{ split; intros [Hd ->]; [by rewrite Hd in Hu|by rewrite Hd in Hpo]. }
  simpl.
  destruct (smt.eq _ e).
  { pose proof (emap_assign_length (smt.subst x (nums i) e) v instances2).
    lia. }
  destruct (smt.isFalse _).
  { specialize (IH instances2). lia. }
  match goal with
  | |- context [emap_try_emplace ?k ?g instances2] =>
      specialize (IH (emap_try_emplace k g instances2));
      pose proof (emap_try_emplace_length k g instances2)
  end.
  lia.
Qed.

(** The loop over the inputs always returns; it sends nothing to the solver,
    writes no debug output and asks the governor at most once per input. *)
Lemma instantiate_inputs_effects inputs :
  ∀ instances w,
    ∃ instances' w',
      instantiate_inputs inputs instances w = Some (instances', w')
      ∧ queries w' = queries w ∧ dbg w' = dbg w
      ∧ mem_calls w ≤ mem_calls w'
      ∧ mem_calls w' ≤ mem_calls w + length (classifiers inputs).
Proof.
  induction inputs as [|i inputs IH]; intros instances w; simpl.
  - eexists _, _. split; [reflexivity|]. repeat split; lia.
  - unfold classifiers. simpl. fold (classifiers inputs).
    destruct (as_Input i) as [x|]; simpl; [|apply IH].
    destruct (bool_decide _).
    { eexists _, _. split; [reflexivity|]. repeat split; lia. }
    unfold bind, hit_half_memory_limit.
    destruct (half_memory_answers _).
    { eexists _, _. split; [reflexivity|]. simpl. repeat split; lia. }
    destruct (IH (instantiate_var x instances)
                (MkWorld (S (mem_calls w)) (queries w) (dbg w)))
      as (instances' & w' & -> & Hq & Hd & Hlo & Hhi).
    simpl in *. eexists _, _. split; [reflexivity|]. repeat split; try done;
      lia.
Qed.

End InstantiateKeys.

Section InstantiateLoop.
Context `{Solver} `{Config}.

Lemma instantiate_inputs_NoDup inputs :
  ∀ instances w instances' w',
    NoDup instances.*1 →
    instantiate_inputs inputs instances w = Some (instances', w') →
    NoDup instances'.*1.
Proof.
  induction inputs as [|i inputs IH]; intros instances w instances' w' Hnd;
    simpl.
  - by intros [= <- _].
  - destruct (as_Input i) as [x|]; [|by apply IH].
    pose proof (instantiate_var_NoDup x instances) as Hnd'.
    destruct (bool_decide _); [by intros [= <- _]|].
    unfold bind, hit_half_memory_limit.
    destruct (half_memory_answers _); [by intros [= <- _]|].
    by apply IH.
Qed.

Lemma instantiate_inputs_absent inputs :
  ∀ instances w,
    NoDup instances.*1 →
    (∀ x e v, x ∈ classifiers inputs → (e, v) ∈ instances →
              x ∉ smt.vars e) →
    ∃ w', instantiate_inputs inputs instances w = Some (instances, w').
Proof.
  induction inputs as [|i inputs IH]; intros instances w Hnd Habs; simpl.
  - by eexists.
  - unfold classifiers in Habs. simpl in Habs. fold (classifiers inputs) in Habs.
    destruct (as_Input i) as [x|]; simpl in Habs; [|by apply IH].
    assert (Hsame : instantiate_var x instances = instances).
    { unfold instantiate_var.
      rewrite instantiate_var_absent_acc; [done|done|].
      intros e v Hin. apply (Habs x e v); [by left|done]. }
    rewrite Hsame.
    destruct (bool_decide _); [by eexists|].
    unfold bind, hit_half_memory_limit.
    destruct (half_memory_answers _); [by eexists|].
    apply IH; [done|].
    intros x' e v Hx' Hin. apply (Habs x' e v); [by right|done].
Qed.

End InstantiateLoop.

(** X3.  The instances map never holds a term twice: whatever map the loop
    over the inputs is entered with, provided its keys are distinct, the map
    it returns has distinct keys.  (The list that stands for [std::map]
    keeps the map's defining property.) *)
Theorem instances_keys_unique `{Solver} `{Config}
    (inputs : list Value) (instances : emap) (w : World) :
  NoDup instances.*1 →
  ∃ instances' w',
    instantiate_inputs inputs instances w = Some (instances', w')
    ∧ NoDup instances'.*1.
Proof.
  intros Hnd.
  destruct (instantiate_inputs_effects inputs instances w)
    as (instances' & w' & Hrun & _).
  exists instances', w'. split; [done|].
  by eapply instantiate_inputs_NoDup.
Qed.

Lemma instances_keys_unique_witness :
  let S := demo.solver (λ _ _, Unsat) in
  let C := demo.config demo.never_full in
  ∃ instances' w',
    @instantiate_inputs S C demo.five_inputs
      [(demo.five_term, EBool true)] demo.w0 = Some (instances', w')
    ∧ NoDup instances'.*1.
Proof.
  intros S C.
  apply (@instances_keys_unique S C demo.five_inputs
           [(demo.five_term, EBool true)] demo.w0).
  simpl. apply NoDup_singleton.
Defined.

(** X4.  Inputs whose classifier does not occur in the formula cost nothing:
    when no classifier of the source's inputs occurs free in the term left
    by the boolean elimination, the instantiation loop keeps the single
    entry it starts with, and [preprocess] returns
    [false || (forall(qvars, e) && true)] over that term. *)
Theorem preprocess_absent_classifiers `{Solver} `{Config}
    (t : Transform) (qvars0 undef_qvars : gset var) (e : expr) (w : World) :
  let r := elim_bool_qvars qvars0 e in
  undef_qvars ≠ ∅ →
  half_memory_answers (mem_calls w) = false →
  half_memory_answers (S (mem_calls w)) = false →
  Forall (λ x, x ∉ smt.vars r.2) (classifiers (getInputs (src t))) →
  ∃ w',
    preprocess t qvars0 undef_qvars e w
    = Some (smt.mkOr (smt.mkBool false)
              (smt.mkAnd (smt.mkForAll r.1 r.2) (smt.mkBool true)), w').
Proof.
  intros r Hne Hm0 Hm1 Habs.
  unfold preprocess, bind, hit_half_memory_limit. simpl. rewrite Hm0.
  fold r. destruct r as [qvars e']. simpl in Habs.
  rewrite bool_decide_eq_false_2 by done. simpl. rewrite Hm1.
  match goal with
  | |- context [instantiate_inputs ?ins ?init ?w1] =>
      destruct (instantiate_inputs_absent ins init w1) as (w' & ->)
  end.
  - simpl. apply NoDup_singleton.
  - intros x e1 v1 Hx Hin. apply list_elem_of_singleton in Hin.
    injection Hin as -> ->. rewrite Forall_forall in Habs. by apply Habs.
  - by eexists.
Qed.

Lemma preprocess_absent_classifiers_witness :
  let S := demo.solver (λ _ _, Unsat) in
  let C := demo.config demo.never_full in
  let x := demo.bv8 "x" in
  let e := EEq (EVar x) (EUInt 3 8) in
  ∃ w',
    @preprocess S C demo.five_t {[ x ]} {[ demo.bv8 "undef!0" ]} e demo.w0
    = Some (EOr (EBool false) (EAnd (EForAll {[ x ]} e) (EBool true)), w').
Proof.
  intros S C x e.
  assert (Hne : ({[ demo.bv8 "undef!0" ]} : gset var) ≠ ∅)
    by (vm_compute; discriminate).
  assert (Habs : Forall (λ y, y ∉ smt.vars (@elim_bool_qvars S {[ x ]} e).2)
                        (classifiers (getInputs (src demo.five_t))))
    by (apply (bool_decide_unpack _); vm_compute; reflexivity).
  exact (@preprocess_absent_classifiers S C demo.five_t {[ x ]}
           {[ demo.bv8 "undef!0" ]} e demo.w0 Hne eq_refl eq_refl Habs).
Defined.

(** X5.  Processing one input multiplies the size of the instances map by
    at most the number of classifier values that are not disabled: 3, less
    one if undef inputs are disabled, less one if poison inputs are.  With
    both disabled the map cannot grow. *)
Theorem instantiate_var_growth `{Solver} `{Config}
    (x : var) (instances : emap) :
  length (instantiate_var x instances)
  ≤ (1 + (if disable_undef_input then 0 else 1)
       + (if disable_poison_input then 0 else 1)) * length instances.
Proof.
  assert (Hgen : ∀ acc,
    length (foldl (λ instances2 '(e, v),
                     instantiate_entry x e v [0%N; 1%N; 2%N] instances2)
                  acc instances)
    ≤ length acc + length enabled_values * length instances).
  { induction instances as [|[e v] instances IH]; intros acc; cbn [foldl].
    - simpl. lia.
    - etrans; [apply IH|].
      pose proof (instantiate_entry_length_enabled x e v [0%N; 1%N; 2%N] acc)
        as Hone.
      fold enabled_values in Hone.
      change (length ((e, v) :: instances)) with (S (length instances)).
      rewrite Nat.mul_succ_r. lia. }
  specialize (Hgen []). simpl in Hgen. unfold instantiate_var.
  etrans; [exact Hgen|]. apply Nat.mul_le_mono_r.
  unfold enabled_values.
  destruct disable_undef_input, disable_poison_input; vm_compute; lia.
Qed.

(** X6.  [preprocess] returns for every input, sends nothing to the solver
    and writes nothing to the debug stream; it asks the memory governor at
    least once and at most twice plus once per [Input] of the source. *)
Theorem preprocess_effects `{Solver} `{Config}
    (t : Transform) (qvars0 undef_qvars : gset var) (e : expr) (w : World) :
  ∃ r w',
    preprocess t qvars0 undef_qvars e w = Some (r, w')
    ∧ queries w' = queries w
    ∧ dbg w' = dbg w
    ∧ mem_calls w < mem_calls w'
    ∧ mem_calls w'
      ≤ mem_calls w + 2 + length (classifiers (getInputs (src t))).
Proof.
  unfold preprocess, bind, hit_half_memory_limit. simpl.
  destruct (half_memory_answers (mem_calls w)).
  { eexists _, _. split; [reflexivity|]. simpl. repeat split; lia. }
  destruct (elim_bool_qvars qvars0 e) as [qvars e'].
  destruct (bool_decide (undef_qvars = ∅)).
  { eexists _, _. split; [reflexivity|]. simpl. repeat split; lia. }
  simpl. destruct (half_memory_answers (S (mem_calls w))).
  { eexists _, _. split; [reflexivity|]. simpl. repeat split; lia. }
  match goal with
  | |- context [instantiate_inputs ?ins ?init ?w1] =>
      destruct (instantiate_inputs_effects ins init w1)
        as (instances & w' & -> & Hq & Hd & Hlo & Hhi)
  end.
  simpl in *. eexists _, _. split; [reflexivity|]. repeat split; try done;
    lia.
Qed.

(** * Further properties of the boolean elimination and the undef probe *)

Section ElimVars.
Context `{Solver} `{Config}.

Lemma vars_subst_closed x lit e :
  smt.vars lit = ∅ →
  ∀ y, y ∈ smt.vars (smt.subst x lit e) → y ∈ smt.vars e ∧ y ≠ x.
Proof.
  intros Hlit.
  induction e as [|z|b|n bits|a IHa|a IHa b IHb|a IHa b IHb
                 |a IHa b IHb|a IHa b IHb|xs body IH]; simpl; intros y;
    try (by intros ?%elem_of_empty).
  - destruct (decide (z = x)) as [->|Hne]; simpl.
    + rewrite Hlit. by intros ?%elem_of_empty.
    + intros ->%elem_of_singleton. split; [by apply elem_of_singleton|done].
  - apply IHa.
  - rewrite !elem_of_union. intros [?%IHa|?%IHb]; tauto.
  - rewrite !elem_of_union. intros [?%IHa|?%IHb]; tauto.
  - rewrite !elem_of_union. intros [?%IHa|?%IHb]; tauto.
  - rewrite !elem_of_union. intros [?%IHa|?%IHb]; tauto.
  - destruct (decide (x ∈ xs)) as [Hin|Hnin]; simpl.
    + rewrite elem_of_difference. intros [Hy Hxs]. split; [done|].
      by intros ->.
    + rewrite !elem_of_difference. intros [Hy%IH Hxs]. tauto.
Qed.

Lemma elim_bool_loop_vars (l : list var) :
  (∀ e y, y ∈ smt.vars (simplify e) → y ∈ smt.vars e) →
  ∀ (qvars : gset var) (e : expr) y,
    y ∈ smt.vars (foldl elim_bool_step (qvars, e) l).2 →
    y ∈ smt.vars e ∧ ¬ (y ∈ l ∧ vsort y = SBool).
Proof.
  intros Hsimp. induction l as [|x l IH]; intros qvars e y; cbn [foldl].
  - simpl. intros Hy. split; [done|]. by intros [?%elem_of_nil _].
  - unfold elim_bool_step at 2. unfold smt.isBool.
    destruct (decide (vsort x = SBool)) as [Hb|Hb].
    + rewrite bool_decide_eq_true_2 by done. simpl.
      intros [Hy Hn]%IH.
      assert (Hyx : y ∈ smt.vars e ∧ y ≠ x).
      { simpl in Hy. apply elem_of_union in Hy as [Hy|Hy];
          apply Hsimp in Hy; by apply vars_subst_closed in Hy. }
      split; [tauto|]. rewrite elem_of_cons. intros [[->|Hyl] Hs]; tauto.
    + rewrite bool_decide_eq_false_2 by done. simpl.
      intros [Hy Hn]%IH. split; [done|].
      rewrite elem_of_cons. intros [[->|Hyl] Hs]; tauto.
Qed.

End ElimVars.

Lemma simplify0_vars e y :
  y ∈ smt.vars (demo.simplify0 e) → y ∈ smt.vars e.
Proof.
  revert y.
  induction e as [|z|b|n bits|a IHa|a IHa b IHb|a IHa b IHb
                 |a IHa b IHb|a IHa b IHb|xs body IH]; intros y; try done.
  - simpl. destruct (demo.simplify0 a); simpl in *; auto;
      by intros ?%elem_of_empty.
  - simpl. destruct (_ || _); [by intros ?%elem_of_empty|].
    destruct (_ && _); [by intros ?%elem_of_empty|].
    simpl. rewrite !elem_of_union. intros [?|?]; auto.
  - simpl. destruct (_ || _); [by intros ?%elem_of_empty|].
    destruct (_ && _); [by intros ?%elem_of_empty|].
    simpl. rewrite !elem_of_union. intros [?|?]; auto.
  - simpl. rewrite !elem_of_union. intros [?|?]; auto.
  - assert (Hgen : y ∈ smt.vars (EEq (demo.simplify0 a) (demo.simplify0 b)) →
                   y ∈ smt.vars (EEq a b)).
    { simpl. rewrite !elem_of_union. intros [?|?]; auto. }
    simpl. simpl in Hgen.
    destruct (demo.simplify0 a) as [| | |n bits| | | | | |]; try exact Hgen.
    destruct (demo.simplify0 b) as [| | |m bits'| | | | | |]; try exact Hgen.
    destruct (decide (bits = bits')); [|exact Hgen].
    by intros ?%elem_of_empty.
  - simpl. rewrite !elem_of_difference. intros [? ?]. auto.
Qed.

(** X7.  After the boolean elimination the rewritten term mentions no
    boolean variable of the quantifier set, and no variable the input term
    did not mention, provided the simplifier introduces no variables. *)
Theorem elim_bool_qvars_vars `{Solver}
    (qvars0 : gset var) (e : expr) (y : var) :
  (∀ e y, y ∈ smt.vars (simplify e) → y ∈ smt.vars e) →
  y ∈ smt.vars (elim_bool_qvars qvars0 e).2 →
  y ∈ smt.vars e ∧ ¬ (y ∈ qvars0 ∧ vsort y = SBool).
Proof.
  intros Hsimp Hy.
  apply (elim_bool_loop_vars (elements qvars0) Hsimp) in Hy as [Hy Hn].
  split; [done|]. intros [Hq Hs]. apply Hn. split; [|done].
  by apply elem_of_elements.
Qed.

Lemma elim_bool_qvars_vars_witness :
  let S := demo.solver (λ _ _, Unsat) in
  let p := demo.boolv "p" in
  let x := demo.bv8 "x" in
  let e := EOr (EVar p) (EEq (EVar x) (EUInt 3 8)) in
  x ∈ smt.vars e ∧ ¬ (x ∈ ({[ p; x ]} : gset var) ∧ vsort x = SBool).
Proof.
  intros S p x e.
  apply (@elim_bool_qvars_vars S {[ p; x ]} e x).
  - intros e0 y0. apply simplify0_vars.
  - vm_compute. reflexivity.
Defined.

(** X8.  For a bare variable [x] the query of [is_undef] is "for all [x],
    [#undef] differs from [x]", and it is false in every environment that
    gives [#undef] a value of [x]'s sort: no model exists, so a solver that
    answers correctly classifies every bare variable as undef. *)
Theorem undef_probe_of_variable `{Solver} `{Config}
    (x : var) (ρ : env) (w : World) :
  has_sort (ρ (MkVar "#undef" (vsort x))) (vsort x) →
  is_undef (EVar x) w
  = Some (isUnsat (solve (length (queries w)) (undef_probe (EVar x))),
          MkWorld (mem_calls w) (queries w ++ [undef_probe (EVar x)])
                  (dbg w))
  ∧ ¬ holds ρ (undef_probe (EVar x)).
Proof.
  intros Hsort. split; [reflexivity|].
  unfold holds, undef_probe, smt.mkForAll, smt.mkNe, smt.mkVar. simpl.
  intros Hall.
  set (u := MkVar "#undef" (vsort x)) in *.
  set (ρ' := λ y, if decide (y = x) then ρ u else ρ y).
  apply (Hall ρ').
  - intros y Hy. unfold ρ'. rewrite decide_False; [done|].
    intros ->. apply Hy. by apply elem_of_singleton.
  - intros y ->%elem_of_singleton. unfold ρ'. by rewrite decide_True.
  - assert (Hu : ρ' u = ρ u) by (unfold ρ'; by destruct (decide (u = x))).
    assert (Hx : ρ' x = ρ u) by (unfold ρ'; by rewrite decide_True).
    rewrite Hu, Hx. apply den_eq_refl.
Qed.

Lemma undef_probe_of_variable_witness :
  let S := demo.solver (λ _ _, Unsat) in
  let C := demo.config demo.never_full in
  let x := demo.bv8 "x" in
  let ρ : env := λ _, VBV 0 in
  @is_undef S (EVar x) demo.w0
  = Some (isUnsat (@solve S 0 (undef_probe (EVar x))),
          MkWorld 0 [undef_probe (EVar x)] "")
  ∧ ¬ holds ρ (undef_probe (EVar x)).
Proof.
  intros S C x ρ.
  apply (@undef_probe_of_variable S C x ρ demo.w0).
  simpl. reflexivity.
Defined.

(** * Further properties of the renderer, [error] and the constructor *)

Section Effects.
Context `{IR}.

Lemma only_queried_refl w : only_queried w w.
Proof. by repeat split. Qed.

Lemma only_queried_trans w1 w2 w3 :
  only_queried w1 w2 → only_queried w2 w3 → only_queried w1 w3.
Proof.
  intros (Hm1 & Hd1 & Hq1) (Hm2 & Hd2 & Hq2). repeat split.
  - by rewrite Hm2.
  - by rewrite Hd2.
  - by etrans.
Qed.

Lemma queries_only_ret {A} (a : A) : queries_only (ret a).
Proof. intros w a' w' [= _ <-]. apply only_queried_refl. Qed.

Lemma queries_only_abort {A} : queries_only (@abort A).
Proof. by intros w a w'. Qed.

Lemma queries_only_bind {A B} (c : M A) (k : A → M B) :
  queries_only c → (∀ a, queries_only (k a)) → queries_only (bind c k).
Proof.
  intros Hc Hk w b w'. unfold bind.
  destruct (c w) as [[a w1]|] eqn:Hrun; [|done].
  intros Hrun'. eapply only_queried_trans; [by eapply Hc|by eapply Hk].
Qed.

Lemma queries_only_check_expr q : queries_only (check_expr q).
Proof.
  intros w r w' [= _ <-]. repeat split. simpl. by apply prefix_app_r.
Qed.

Lemma queries_only_is_undef e : queries_only (is_undef e).
Proof.
  unfold is_undef. destruct (smt.isConst e); [apply queries_only_ret|].
  apply queries_only_bind; [apply queries_only_check_expr|].
  intros r. apply queries_only_ret.
Qed.

Lemma queries_only_print_single_varval st m var type val :
  queries_only (print_single_varval st m var type val).
Proof.
  unfold print_single_varval.
  destruct (negb _); [apply queries_only_ret|].
  destruct (_ || _); [apply queries_only_ret|].
  apply queries_only_bind.
  - destruct (as_Input var); [|apply queries_only_ret].
    destruct (smt.isUInt _); [|apply queries_only_abort].
    destruct (bool_decide _); [apply queries_only_ret|].
    destruct (bool_decide _); [apply queries_only_ret|apply queries_only_abort].
  - intros [|]; [apply queries_only_ret|].
    apply queries_only_bind; [apply queries_only_is_undef|].
    intros [|]; [apply queries_only_ret|].
    destruct (negb _); [|apply queries_only_ret].
    destruct (existsb _ _); apply queries_only_ret.
Qed.

Lemma queries_only_print_children (render : Ty → StateValue → M string)
    agg val tys :
  Forall (λ ty, ∀ v, queries_only (render ty v)) tys →
  ∀ i, queries_only (print_children render agg val i tys).
Proof.
  induction 1 as [|ty tys Hty _ IH]; intros i; simpl.
  - apply queries_only_ret.
  - apply queries_only_bind; [apply Hty|]. intros s.
    apply queries_only_bind; [apply IH|]. intros r. apply queries_only_ret.
Qed.

Lemma queries_only_print_varval st m var type :
  ∀ val, queries_only (print_varval st m var type val).
Proof.
  induction type as [name|elems IH|elems IH] using Ty_elems_ind; intros val;
    simpl.
  - apply queries_only_print_single_varval.
  - apply queries_only_bind; [by apply queries_only_print_children|].
    intros body. apply queries_only_ret.
  - apply queries_only_bind; [by apply queries_only_print_children|].
    intros body. apply queries_only_ret.
Qed.

Lemma queries_only_print_inputs src_state m values :
  queries_only (print_inputs src_state m values).
Proof.
  induction values as [|[[var val] used] values IH]; simpl.
  - apply queries_only_ret.
  - destruct (_ && _); [done|].
    apply queries_only_bind; [apply queries_only_print_varval|]. intros s.
    apply queries_only_bind; [done|]. intros r. apply queries_only_ret.
Qed.

Lemma queries_only_print_values st m var_name check_each_var values :
  ∀ seen_vars,
    queries_only (print_values st m var_name check_each_var values seen_vars).
Proof.
  induction values as [|[[var val] used] values IH]; intros seen_vars; simpl.
  - apply queries_only_ret.
  - destruct (bool_decide _); [apply queries_only_ret|].
    destruct (_ || _); [done|].
    destruct (_ && _); [done|].
    apply queries_only_bind; [apply queries_only_print_varval|]. intros s.
    apply queries_only_bind; [done|]. intros r. apply queries_only_ret.
Qed.

Lemma queries_only_print_states m var_name check_each_var sts :
  ∀ seen_vars,
    queries_only (print_states m var_name check_each_var sts seen_vars).
Proof.
  induction sts as [|st sts IH]; intros seen_vars; simpl.
  - apply queries_only_ret.
  - apply queries_only_bind; [apply queries_only_print_values|]. intros vs.
    apply queries_only_bind; [done|]. intros r. apply queries_only_ret.
Qed.

(** The per-state listing does not look past the value named [var_name]. *)
Lemma print_values_cut st m var_name check_each_var prefix :
  ∀ var val used rest rest' seen_vars w,
    getName var = var_name →
    print_values st m var_name check_each_var
      (prefix ++ (var, val, used) :: rest) seen_vars w
    = print_values st m var_name check_each_var
        (prefix ++ (var, val, used) :: rest') seen_vars w.
Proof.
  induction prefix as [|[[var0 val0] used0] prefix IH];
    intros var val used rest rest' seen_vars w Hname; simpl.
  - by rewrite bool_decide_eq_true_2.
  - destruct (bool_decide _); [done|].
    destruct (_ || _); [by apply IH|].
    destruct (_ && _); [by apply IH|].
    unfold bind. destruct (print_varval _ _ _ _ _ _) as [[s w1]|]; [|done].
    by rewrite (IH var val used rest rest').
Qed.

End Effects.

(** X9.  Rendering a value never asks the memory governor and never writes
    to the debug stream: when [print_varval] returns, the world differs from
    the one it started in at most by solver queries appended to the log (the
    undef probes), for every type, however deeply nested. *)
Theorem print_varval_only_queries `{IR}
    (st : State Memory) (m : Model) (var : Value) (type : Ty)
    (val : StateValue) (w : World) (s : string) (w' : World) :
  print_varval st m var type val w = Some (s, w') →
  mem_calls w' = mem_calls w
  ∧ dbg w' = dbg w
  ∧ queries w `prefix_of` queries w'.
Proof. apply queries_only_print_varval. Qed.

Lemma print_varval_only_queries_witness :
  let S := demo.solver (λ _ _, Unsat) in
  let I := demo.ir S demo.plain_exec in
  let w1 := MkWorld 0 [undef_probe (EVar (demo.bv8 "%y"))] "" in
  mem_calls w1 = mem_calls demo.w0
  ∧ dbg w1 = dbg demo.w0
  ∧ queries demo.w0 `prefix_of` queries w1.
Proof.
  intros S I w1.
  apply (@print_varval_only_queries S I demo.plain_src demo.hole_model
           demo.x_in (StructTy [demo.i8])
           (MkStateValue (EVar (demo.bv8 "%y")) (EBool true))
           demo.w0 "{ undef }" w1).
  vm_compute. reflexivity.
Defined.

(** X10.  [error] touches nothing but the collector and the solver log:
    when it returns, the governor has not been asked and the debug stream
    is unchanged, and the collector has exactly one more entry, added at the
    end; the entry is flagged as having a witness exactly when the result
    is neither [Invalid], [Timeout], an error nor [Skipped]. *)
Theorem error_appends_one `{IR}
    (errs : Errors) (src_state tgt_state : State Memory) (r : Result Model)
    (var : option Value) (msg : string) (check_each_var : bool)
    (print_var_val : Model → string) (w : World) (errs' : Errors)
    (w' : World) :
  error errs src_state tgt_state r var msg check_each_var print_var_val w
  = Some (errs', w') →
  (∃ text,
     errs' = errs ++ [(text,
                       negb (isInvalid r || isTimeout r || isError r
                             || isSkip r))])
  ∧ mem_calls w' = mem_calls w
  ∧ dbg w' = dbg w
  ∧ queries w `prefix_of` queries w'.
Proof.
  unfold error.
  destruct (isInvalid r) eqn:H1.
  { intros [= <- <-]. split; [by eexists|apply only_queried_refl]. }
  destruct (isTimeout r) eqn:H2.
  { intros [= <- <-]. split; [by eexists|apply only_queried_refl]. }
  destruct (isError r) eqn:H3.
  { intros [= <- <-]. split; [by eexists|apply only_queried_refl]. }
  destruct (isSkip r) eqn:H4.
  { intros [= <- <-]. split; [by eexists|apply only_queried_refl]. }
  unfold bind at 1.
  destruct (print_inputs _ _ _ w) as [[ins w1]|] eqn:Hins; [|done].
  unfold bind at 1.
  destruct (print_states _ _ _ _ _ w1) as [[sts w2]|] eqn:Hsts; [|done].
  intros [= <- <-]. split; [by eexists|].
  eapply only_queried_trans.
  - by eapply queries_only_print_inputs.
  - by eapply queries_only_print_states.
Qed.

Lemma error_appends_one_witness :
  let S := demo.solver (λ _ _, Unsat) in
  let I := demo.ir S demo.plain_exec in
  let text :=
    "Source is more defined than target" +:+ nl +:+ nl
    +:+ "Example:" +:+ nl +:+ "%x = <const>" +:+ nl
    +:+ nl +:+ "Source:" +:+ nl +:+ nl +:+ "Target:" +:+ nl in
  (∃ text',
     [("Skip", false); (text, true)]
     = [("Skip", false)] ++ [(text', true)])
  ∧ mem_calls demo.w0 = mem_calls demo.w0
  ∧ dbg demo.w0 = dbg demo.w0
  ∧ queries demo.w0 `prefix_of` queries demo.w0.
Proof.
  intros S I text.
  apply (@error_appends_one S I [("Skip", false)] demo.plain_src
           demo.plain_tgt (Sat demo.hole_model) None
           "Source is more defined than target" false (λ _, "")
           demo.w0 [("Skip", false); (text, true)] demo.w0).
  vm_compute. reflexivity.
Defined.

(** X11.  The per-state listing of [error] stops at the first value whose
    name is [var_name]: the values that follow it have no influence on the
    text, on the names recorded as seen, or on the solver queries sent. *)
Theorem print_values_stops_at_var `{IR}
    (st : State Memory) (m : Model) (var_name : string)
    (check_each_var : bool) (prefix : list (Value * ValTy * bool))
    (var : Value) (val : ValTy) (used : bool)
    (rest rest' : list (Value * ValTy * bool)) (seen_vars : gset string)
    (w : World) :
  getName var = var_name →
  print_values st m var_name check_each_var
    (prefix ++ (var, val, used) :: rest) seen_vars w
  = print_values st m var_name check_each_var
      (prefix ++ (var, val, used) :: rest') seen_vars w.
Proof. apply print_values_cut. Qed.

Lemma print_values_stops_at_var_witness :
  let S := demo.solver (λ _ _, Unsat) in
  let I := demo.ir S demo.plain_exec in
  let v := MkValue 9 IsOther "%t" demo.i8 in
  let sv : ValTy := (MkStateValue (EUInt 1 8) (EBool true), ∅) in
  @print_values S I demo.plain_src demo.hole_model "%t" false
    ([(MkValue 8 IsOther "%s" demo.i8, sv, true)]
       ++ (v, sv, true) :: demo.hole_values) ∅ demo.w0
  = @print_values S I demo.plain_src demo.hole_model "%t" false
      ([(MkValue 8 IsOther "%s" demo.i8, sv, true)]
         ++ (v, sv, true) :: []) ∅ demo.w0.
Proof.
  intros S I v sv.
  exact (@print_values_stops_at_var S I demo.plain_src demo.hole_model "%t"
           false [(MkValue 8 IsOther "%s" demo.i8, sv, true)] v sv true
           demo.hole_values [] ∅ demo.w0 eq_refl).
Defined.

(** X12.  The constructor indexes the target's instructions by name only
    when [check_each_var] is set, and then each name leads to the first
    instruction that carries it; otherwise the index is empty. *)
Theorem tgt_instrs_first_by_name (t : Transform) (name : string) :
  vectorsynth.tgt_instrs (vectorsynth.ConstantSynth_new t true) !! name
  = addr <$> head (filter (λ i, getName i = name) (instrs (tgt t)))
  ∧ vectorsynth.tgt_instrs (vectorsynth.ConstantSynth_new t false) = ∅.
Proof.
  split; [|done]. unfold vectorsynth.ConstantSynth_new. simpl.
  assert (Hgen : ∀ l (acc : gmap string positive),
    foldl (λ m i, match m !! getName i with
                  | Some _ => m
                  | None => <[ getName i := addr i ]> m
                  end) acc l !! name
    = match acc !! name with
      | Some a => Some a
      | None => addr <$> head (filter (λ i, getName i = name) l)
      end).
  { induction l as [|i l IH]; intros acc; cbn [foldl].
    - simpl. by destruct (acc !! name).
    - rewrite IH. destruct (decide (getName i = name)) as [Heq|Hne].
      + rewrite filter_cons_True by done. simpl.
        destruct (acc !! getName i) as [a|] eqn:Ha.
        * rewrite Heq in Ha. by rewrite Ha.
        * rewrite Heq in Ha. rewrite Ha, Heq. by rewrite lookup_insert_eq.
      + rewrite filter_cons_False by done.
        destruct (acc !! getName i) as [a|] eqn:Ha; [done|].
        by rewrite lookup_insert_ne. }
  rewrite Hgen. by rewrite lookup_empty.
Qed.

(** * The instantiated formula is stronger, not equivalent *)

(** X13.  The formula built at lines 87-90 holds in an environment exactly
    when some surviving entry does: its term holds for all values of the
    quantified variables and its guard holds. *)
Theorem mk_insts_meaning `{Solver} `{Config}
    (qvars : gset var) (instances : emap) (ρ : env) :
  holds ρ (mk_insts qvars instances)
  ↔ ∃ e v, (e, v) ∈ instances
           ∧ holds ρ (smt.mkForAll qvars e) ∧ holds ρ v.
Proof.
  unfold mk_insts. rewrite mk_insts_holds_acc. split; [|by right].
  intros [Hf|?]; [done|done].
Qed.

(** X14.  The converse of X1 fails: [preprocess] is not an equivalence.
    When two classifier values give the same simplified instance, only the
    guard of the first is kept ([try_emplace]).  Here the term "classifier
    of %a differs from 3" becomes [true] for each of 0, 1 and 2 under a
    constant-folding simplifier, the only guard kept is "classifier = 0",
    and in an environment where the classifier is 1 the closure of the term
    holds while the result of [preprocess] does not. *)
Theorem preprocess_not_equivalent :
  let S := demo.solver (λ _ _, Unsat) in
  let C := demo.config demo.never_full in
  let x := demo.bv2 "ty_%a" in
  let e := ENot (EEq (EVar x) (EUInt 3 2)) in
  let t := MkTransform (MkFunction [demo.input 1 "%a"] demo.i8 [])
                       (MkFunction [demo.input 1 "%a"] demo.i8 []) in
  let ρ : env := λ _, VBV 1 in
  let r := EOr (EBool false)
             (EAnd (EForAll ∅ (EBool true))
                   (EAnd (EBool true) (EEq (EVar x) (EUInt 0 2)))) in
  simplify_sound (@simplify S)
  ∧ @preprocess S C t ∅ {[ demo.bv8 "undef!0" ]} e demo.w0
    = Some (r, MkWorld 3 [] "")
  ∧ holds ρ (smt.mkForAll ∅ e)
  ∧ ¬ holds ρ r.
Proof.
  intros S C x e t ρ r. split; [apply simplify0_sound|].
  split; [vm_compute; reflexivity|]. split.
  - intros ρ' Hout _. simpl. rewrite Hout by apply not_elem_of_empty.
    simpl. intros Heq. vm_compute in Heq. discriminate.
  - unfold holds. simpl. intros [Hf|[_ [_ Heq]]]; [done|].
    vm_compute in Heq. discriminate.
Qed.

(** X15.  [print_single_varval] aborts in exactly one situation: the value
    is valid, its non-poison flag evaluates to a constant other than false,
    the variable is an [Input], and the classifier does not evaluate to the
    numeral 0 or 1 (the checks of lines 123 and 128).  In every other case
    it returns a text. *)
Theorem print_single_varval_aborts_iff `{IR}
    (st : State Memory) (m : Model) (var : Value) (type : Ty)
    (val : StateValue) (w : World) :
  print_single_varval st m var type val w = None
  ↔ StateValue_isValid val = true
    ∧ smt.isConst (Model_eval m (non_poison val) false) = true
    ∧ smt.isFalse (Model_eval m (non_poison val) false) = false
    ∧ classifier_ok m var = false.
Proof.
  split.
  - intros Hrun.
    destruct (classifier_ok m var) eqn:Hok.
    { destruct (print_single_varval_total st m var type val w Hok)
        as (s & w' & Hsome). congruence. }
    unfold print_single_varval in Hrun.
    destruct (StateValue_isValid val); [|done]. simpl in Hrun.
    destruct (smt.isConst _); [|done]. simpl in Hrun.
    destruct (smt.isFalse _); done.
  - intros (Hvalid & Hconst & Hnf & Hok).
    unfold print_single_varval. rewrite Hvalid, Hconst, Hnf. simpl.
    unfold classifier_ok in Hok. unfold bind.
    destruct (as_Input var) as [tyvar|]; [|done].
    destruct (smt.isUInt _) as [n|]; [|done].
    apply orb_false_iff in Hok as [Hzero Hone]. by rewrite Hone, Hzero.
Qed.
